(** * VaultGrid: a confidential document registry

    Shallow embedding of [contracts/VaultGrid.sol] and the properties of
    its access-controlled record store.

    The contract keeps three storage variables: a document counter, a
    mapping from document id to [Document], and a nested mapping from
    (document id, address) to [bool].  External functions run as
    transactions: a [revert] discards every write of the call. *)

From Stdlib Require Import ZArith String List Lia.
From stdpp Require Import gmap strings list fin_maps.

Local Open Scope Z_scope.

(** ** Solidity value types *)

(** [uint256]: an integer in [0, 2^256).  Arithmetic is checked
    (pragma ^0.8.24), so an overflowing operation aborts the call. *)
Definition uint256 : Type := Z.
Definition MAX_UINT256 : Z := 2 ^ 256 - 1.

(** [address]: a 160-bit value; [address(0)] is the zero address. *)
Definition address : Type := Z.
Definition address_zero : address := 0.

(** [eaddress] and [externalEaddress] are 32-byte handles of the FHE
    library; [bytes] is a byte string. *)
Definition eaddress : Type := Z.
Definition externalEaddress : Type := Z.
Definition bytes : Type := list Byte.byte.

(** ** Data model *)

(** [struct Document]. *)
Record Document : Type := mkDocument {
  name : string;
  encryptedBody : string;
  encryptedKey : eaddress;
  owner : address;
  createdAt : uint256;
  updatedAt : uint256
}.

(** The value a mapping yields at a key never written. *)
Definition Document_zero : Document :=
  {| name := EmptyString; encryptedBody := EmptyString; encryptedKey := 0;
     owner := address_zero; createdAt := 0; updatedAt := 0 |}.

(** The three events of the contract. *)
Inductive Event : Type :=
| DocumentCreated (documentId : uint256) (owner : address) (name : string)
| DocumentUpdated (documentId : uint256) (editor : address)
| AccessGranted (documentId : uint256) (user : address).

(** The custom errors of the contract, the arithmetic panic of checked
    [++], and the rejection of an encrypted input by the FHE library. *)
Inductive Error : Type :=
| DocumentNotFound (documentId : uint256)
| NotAuthorized (caller : address)
| InvalidAddress
| Panic (code : Z)
| InvalidInput.

(** Contract storage, together with the two pieces of the world a call
    writes to: the decryption allowances kept by the FHE library, as
    (handle, account) pairs, and the event log. *)
Record State : Type := mkState {
  _documentCount : uint256;
  _documents : gmap Z Document;
  _editors : gmap (Z * Z) bool;
  allowed : gset (Z * Z);
  events : list Event
}.

(** The state at deployment: every storage slot is zero. *)
Definition init : State :=
  {| _documentCount := 0; _documents := ∅; _editors := ∅;
     allowed := ∅; events := [] |}.

(** [_documents[documentId]] and [_editors[documentId][user]] as reads:
    a mapping is total and yields the zero value where nothing was
    stored. *)
Definition documentAt (s : State) (documentId : uint256) : Document :=
  default Document_zero (_documents s !! documentId).

Definition editorAt (s : State) (documentId : uint256) (user : address) : bool :=
  default false (_editors s !! (documentId, user)).

(** What a call sees of its environment: [msg.sender] and
    [block.timestamp]. *)
Record Env : Type := mkEnv {
  msg_sender : address;
  block_timestamp : uint256
}.

(** ** Calls that may revert *)

Inductive result (A : Type) : Type :=
| Ok (a : A)
| Revert (e : Error).
Arguments Ok {A} a.
Arguments Revert {A} e.

(** A state-changing function maps the state before the call to either a
    return value with the state after, or a revert. *)
Definition Tx (A : Type) : Type := State -> result (A * State).

Definition ret {A} (a : A) : Tx A := fun s => Ok (a, s).

Definition bind {A B} (m : Tx A) (k : A -> Tx B) : Tx B :=
  fun s => match m s with
           | Ok (a, s') => k a s'
           | Revert e => Revert e
           end.

Definition revert {A} (e : Error) : Tx A := fun _ => Revert e.

Definition gets {A} (f : State -> A) : Tx A := fun s => Ok (f s, s).

Definition modify (f : State -> State) : Tx unit := fun s => Ok (tt, f s).

(** A [view] function used inside a state-changing one. *)
Definition view {A} (v : State -> result A) : Tx A :=
  fun s => match v s with
           | Ok a => Ok (a, s)
           | Revert e => Revert e
           end.

Declare Scope tx_scope.
Delimit Scope tx_scope with tx.
Notation "x ← m ; k" := (bind m (fun x => k))
  (at level 20, m at level 100, k at level 200, only parsing) : tx_scope.
Notation "m ;; k" := (bind m (fun _ => k))
  (at level 100, k at level 200, only parsing, right associativity) : tx_scope.

(** ** Storage writes *)

Definition set_documentCount (n : uint256) (s : State) : State :=
  {| _documentCount := n; _documents := _documents s;
     _editors := _editors s; allowed := allowed s; events := events s |}.

Definition set_document (documentId : uint256) (d : Document) (s : State) : State :=
  {| _documentCount := _documentCount s;
     _documents := <[documentId := d]> (_documents s);
     _editors := _editors s; allowed := allowed s; events := events s |}.

Definition set_editor (documentId : uint256) (user : address) (b : bool)
    (s : State) : State :=
  {| _documentCount := _documentCount s; _documents := _documents s;
     _editors := <[(documentId, user) := b]> (_editors s);
     allowed := allowed s; events := events s |}.

Definition add_allowed (handle : eaddress) (account : address) (s : State) : State :=
  {| _documentCount := _documentCount s; _documents := _documents s;
     _editors := _editors s;
     allowed := {[ (handle, account) ]} ∪ allowed s; events := events s |}.

Definition add_event (e : Event) (s : State) : State :=
  {| _documentCount := _documentCount s; _documents := _documents s;
     _editors := _editors s; allowed := allowed s;
     events := events s ++ [e] |}.

(** Writes through a storage reference [Document storage doc]:
    [doc.encryptedBody = b] and [doc.updatedAt = t]. *)
Definition with_encryptedBody (b : string) (d : Document) : Document :=
  {| name := name d; encryptedBody := b; encryptedKey := encryptedKey d;
     owner := owner d; createdAt := createdAt d; updatedAt := updatedAt d |}.

Definition with_updatedAt (t : uint256) (d : Document) : Document :=
  {| name := name d; encryptedBody := encryptedBody d;
     encryptedKey := encryptedKey d; owner := owner d;
     createdAt := createdAt d; updatedAt := t |}.

Definition emit (e : Event) : Tx unit := modify (add_event e).

(** [++_documentCount]: checked pre-increment, yields the new value. *)
Definition pre_increment_documentCount : Tx uint256 :=
  (n ← gets _documentCount;
   if n >=? MAX_UINT256 then revert (Panic 17)
   else (modify (set_documentCount (n + 1));; ret (n + 1)))%tx.

(** ** View functions *)

(** [_getDocument]: the stored record, or [DocumentNotFound] when its
    owner is the zero address. *)
Definition _getDocument (documentId : uint256) (s : State) : result Document :=
  let doc := documentAt s documentId in
  if owner doc =? address_zero then Revert (DocumentNotFound documentId)
  else Ok doc.

Definition documentCount (s : State) : uint256 := _documentCount s.

Definition getDocument (documentId : uint256) (s : State)
    : result (string * string * eaddress * address * uint256 * uint256) :=
  match _getDocument documentId s with
  | Ok doc => Ok (name doc, encryptedBody doc, encryptedKey doc,
                  owner doc, createdAt doc, updatedAt doc)
  | Revert e => Revert e
  end.

Definition isEditor (documentId : uint256) (user : address) (s : State)
    : result bool :=
  match _getDocument documentId s with
  | Ok _ => Ok (editorAt s documentId user)
  | Revert e => Revert e
  end.

(** ** State-changing functions *)

Section Contract.

(** The contract's own address, [address(this)]. *)
Variable this : address.

(** [FHE.fromExternal]: the FHE library checks an external handle
    against its proof and yields the imported handle, or aborts the
    call.  The library is a dependency of the contract; the contract's
    properties are stated for every such check. *)
Variable FHE_fromExternal : externalEaddress -> bytes -> option eaddress.

Definition fromExternal (h : externalEaddress) (proof : bytes) : Tx eaddress :=
  match FHE_fromExternal h proof with
  | Some key => ret key
  | None => revert InvalidInput
  end.

(** Modelled from the spec: [FHE.allow] and [FHE.allowThis] belong to the
    FHE library, which is not part of the repository; the spec describes
    them as [authorizeIdentity(key, identity)] and [authorizeSelf(key)],
    which extend decrypt rights and add no failure mode to a call. *)
Definition FHE_allow (key : eaddress) (account : address) : Tx unit :=
  modify (add_allowed key account).

Definition FHE_allowThis (key : eaddress) : Tx unit := FHE_allow key this.

Definition createDocument (env : Env) (name : string)
    (encryptedKey : externalEaddress) (inputProof : bytes) : Tx uint256 :=
  (documentId ← pre_increment_documentCount;
   key ← fromExternal encryptedKey inputProof;
   modify (set_document documentId
             {| name := name; encryptedBody := EmptyString;
                encryptedKey := key; owner := msg_sender env;
                createdAt := block_timestamp env;
                updatedAt := block_timestamp env |});;
   modify (set_editor documentId (msg_sender env) true);;
   FHE_allowThis key;;
   FHE_allow key (msg_sender env);;
   emit (DocumentCreated documentId (msg_sender env) name);;
   ret documentId)%tx.

Definition updateDocument (env : Env) (documentId : uint256)
    (encryptedBody : string) : Tx unit :=
  (view (_getDocument documentId);;
   isMember ← gets (fun s => editorAt s documentId (msg_sender env));
   if negb isMember then revert (NotAuthorized (msg_sender env))
   else
     (modify (fun s => set_document documentId
                (with_encryptedBody encryptedBody (documentAt s documentId)) s);;
      modify (fun s => set_document documentId
                (with_updatedAt (block_timestamp env) (documentAt s documentId)) s);;
      emit (DocumentUpdated documentId (msg_sender env))))%tx.

Definition grantAccess (env : Env) (documentId : uint256) (user : address)
    : Tx unit :=
  (if user =? address_zero then revert InvalidAddress
   else
     (doc ← view (_getDocument documentId);
      if negb (msg_sender env =? owner doc)
      then revert (NotAuthorized (msg_sender env))
      else
        (modify (set_editor documentId user true);;
         key ← gets (fun s => encryptedKey (documentAt s documentId));
         FHE_allow key user;;
         emit (AccessGranted documentId user))))%tx.

(** ** Transactions *)

(** The external state-changing entry points with their arguments. *)
Inductive Call : Type :=
| CreateDocument (name : string) (encryptedKey : externalEaddress)
    (inputProof : bytes)
| UpdateDocument (documentId : uint256) (encryptedBody : string)
| GrantAccess (documentId : uint256) (user : address).

(** What a transaction reports: the id for a creation, nothing for the
    other two, or the error of a revert. *)
Definition dispatch (env : Env) (c : Call) : Tx (option uint256) :=
  match c with
  | CreateDocument nm key proof =>
      (documentId ← createDocument env nm key proof; ret (Some documentId))%tx
  | UpdateDocument documentId body =>
      (updateDocument env documentId body;; ret None)%tx
  | GrantAccess documentId user =>
      (grantAccess env documentId user;; ret None)%tx
  end.

(** A transaction commits the writes of a call that returns and keeps
    the previous state when the call reverts. *)
Definition transact (s : State) (tx : Env * Call)
    : State * result (option uint256) :=
  match dispatch (fst tx) (snd tx) s with
  | Ok (r, s') => (s', Ok r)
  | Revert e => (s, Revert e)
  end.

(** Transactions are applied one at a time, in order. *)
Fixpoint run (s : State) (txs : list (Env * Call))
    : State * list (result (option uint256)) :=
  match txs with
  | [] => (s, [])
  | tx :: rest =>
      let (s1, r) := transact s tx in
      let (s2, rs) := run s1 rest in
      (s2, r :: rs)
  end.

(** The ids returned by the successful creations of a run, in order. *)
Fixpoint created_ids (rs : list (result (option uint256))) : list uint256 :=
  match rs with
  | [] => []
  | Ok (Some documentId) :: rest => documentId :: created_ids rest
  | _ :: rest => created_ids rest
  end.

(** A state is reachable when some sequence of transactions leads to it
    from deployment. *)
Definition reachable (s : State) : Prop :=
  exists txs, fst (run init txs) = s.

End Contract.

(** ** The effect of each call, in closed form *)

(** The state after a creation that imports [key]. *)
Definition created (this : address) (env : Env) (nm : string) (key : eaddress)
    (s : State) : State :=
  let documentId := _documentCount s + 1 in
  add_event (DocumentCreated documentId (msg_sender env) nm)
    (add_allowed key (msg_sender env)
       (add_allowed key this
          (set_editor documentId (msg_sender env) true
             (set_document documentId
                {| name := nm; encryptedBody := EmptyString;
                   encryptedKey := key; owner := msg_sender env;
                   createdAt := block_timestamp env;
                   updatedAt := block_timestamp env |}
                (set_documentCount documentId s))))).

(** The state after an update of [documentId] with [body]. *)
Definition updated (env : Env) (documentId : uint256) (body : string)
    (s : State) : State :=
  add_event (DocumentUpdated documentId (msg_sender env))
    (set_document documentId
       (with_updatedAt (block_timestamp env)
          (with_encryptedBody body (documentAt s documentId))) s).

(** The state after a grant of [documentId] to [user]. *)
Definition granted (documentId : uint256) (user : address) (s : State) : State :=
  add_event (AccessGranted documentId user)
    (add_allowed (encryptedKey (documentAt s documentId)) user
       (set_editor documentId user true s)).

(** ** Steps and invariants *)

(** One transaction, seen from outside: it reverts and leaves the state
    as it was, or it commits a creation, an update or a grant whose
    checks all passed. *)
Inductive step (this : address) (s : State) : State -> Prop :=
| step_revert : step this s s
| step_create env nm key :
    _documentCount s < MAX_UINT256 ->
    step this s (created this env nm key s)
| step_update env documentId body :
    owner (documentAt s documentId) <> address_zero ->
    editorAt s documentId (msg_sender env) = true ->
    step this s (updated env documentId body s)
| step_grant env documentId user :
    user <> address_zero ->
    owner (documentAt s documentId) <> address_zero ->
    msg_sender env = owner (documentAt s documentId) ->
    step this s (granted documentId user s).

(** A document exists when its owner is set. *)
Definition exists_document (s : State) (documentId : uint256) : Prop :=
  owner (documentAt s documentId) <> address_zero.

(** What every state of the deployed contract satisfies. *)
Record invariant (s : State) : Prop := mkInvariant {
  (* the counter is a uint256 *)
  inv_count : 0 <= _documentCount s <= MAX_UINT256;
  (* nothing is stored outside the ids handed out so far *)
  inv_fresh_document : forall documentId,
    ~ (1 <= documentId <= _documentCount s) ->
    documentAt s documentId = Document_zero;
  inv_fresh_editor : forall documentId user,
    ~ (1 <= documentId <= _documentCount s) ->
    editorAt s documentId user = false;
  (* the owner of an existing document is one of its editors *)
  inv_owner_editor : forall documentId,
    exists_document s documentId ->
    editorAt s documentId (owner (documentAt s documentId)) = true;
  (* the zero address is no editor of an existing document *)
  inv_zero_editor : forall documentId,
    exists_document s documentId ->
    editorAt s documentId address_zero = false
}.

(** Block timestamps do not go back: each transaction of the list
    carries a timestamp at least that of the one before it, the first one
    at least [t]. *)
Fixpoint clock_ordered (t : uint256) (txs : list (Env * Call)) : Prop :=
  match txs with
  | [] => True
  | tx :: rest =>
      t <= block_timestamp (fst tx) /\
      clock_ordered (block_timestamp (fst tx)) rest
  end.

(** The timestamp of the last transaction of the list, [t] when there is
    none. *)
Fixpoint last_time (t : uint256) (txs : list (Env * Call)) : uint256 :=
  match txs with
  | [] => t
  | tx :: rest => last_time (block_timestamp (fst tx)) rest
  end.

(** Every stored timestamp is at most [t], and no document was updated
    before it was created. *)
Definition stamped_by (t : uint256) (s : State) : Prop :=
  forall documentId,
    createdAt (documentAt s documentId) <= updatedAt (documentAt s documentId) /\
    updatedAt (documentAt s documentId) <= t.

(** The ids [1; 2; ...; n]. *)
Definition ids_upto (n : nat) : list uint256 := map Z.of_nat (seq 1 n).

(** ** A concrete instance, for examples *)

(** An input check that accepts a handle with any non-empty proof. *)
Definition demo_fromExternal (h : externalEaddress) (proof : bytes)
    : option eaddress :=
  match proof with
  | [] => None
  | _ :: _ => Some h
  end.

Definition demo_this : address := 4096.
Definition alice : address := 161.
Definition bob : address := 178.
Definition carol : address := 195.
Definition demo_proof : bytes := [Byte.x01].
Definition at_time (who : address) (t : uint256) : Env :=
  {| msg_sender := who; block_timestamp := t |}.

(** The scenario of the test suite: Alice creates a document, Bob is
    refused twice, Alice grants him access, Bob updates the body. *)
Definition demo_create : Env * Call :=
  (at_time alice 100, CreateDocument "Ops Manual" 7 demo_proof).
Definition demo_update_refused : Env * Call :=
  (at_time bob 101, UpdateDocument 1 "ciphertext").
Definition demo_grant_refused : Env * Call :=
  (at_time bob 102, GrantAccess 1 bob).
Definition demo_grant : Env * Call :=
  (at_time alice 103, GrantAccess 1 bob).
Definition demo_update : Env * Call :=
  (at_time bob 104, UpdateDocument 1 "ciphertext").

Definition demo_txs : list (Env * Call) :=
  [demo_create; demo_update_refused; demo_grant_refused; demo_grant;
   demo_update].

(** The states after Alice's creation and after her grant. *)
Definition demo_created : State :=
  created demo_this (at_time alice 100) "Ops Manual" 7 init.
Definition demo_granted : State := granted 1 bob demo_created.

(** ** Reading the event log and the results of a run *)

(** The ids carried by the [DocumentCreated] events of a log, in order. *)
Fixpoint created_event_ids (log : list Event) : list uint256 :=
  match log with
  | [] => []
  | DocumentCreated documentId _ _ :: rest =>
      documentId :: created_event_ids rest
  | _ :: rest => created_event_ids rest
  end.

(** How many transactions of a run returned. *)
Fixpoint count_returned (rs : list (result (option uint256))) : nat :=
  match rs with
  | [] => 0%nat
  | Ok _ :: rest => S (count_returned rest)
  | Revert _ :: rest => count_returned rest
  end.

(** Every transaction of the list is sent from a non-zero address. *)
Definition senders_nonzero (txs : list (Env * Call)) : Prop :=
  Forall (fun tx => msg_sender (fst tx) <> address_zero) txs.

(** Whoever may edit an existing document may decrypt its key, and so
    may the contract itself. *)
Definition decrypt_consistent (this : address) (s : State) : Prop :=
  forall documentId,
    exists_document s documentId ->
    (encryptedKey (documentAt s documentId), this) ∈ allowed s /\
    forall user,
      editorAt s documentId user = true ->
      (encryptedKey (documentAt s documentId), user) ∈ allowed s.

(** Every id handed out so far has a document. *)
Definition all_found (s : State) : Prop :=
  forall documentId,
    1 <= documentId <= _documentCount s -> exists_document s documentId.

(** * The front end's helpers

    The pure helpers of [frontend/src/components/VaultApp.tsx], with the
    JavaScript built-ins they call. *)

(** ** JavaScript strings and byte arrays *)

(** A JavaScript string is a sequence of UTF-16 code units; a
    [Uint8Array] is a sequence of bytes. *)
Definition js_string : Type := list Z.

(** An ASCII string literal as code units. *)
Definition lit (s : string) : js_string :=
  map (fun a => Z.of_N (Ascii.N_of_ascii a)) (list_ascii_of_string s).

Definition byte_value (b : Byte.byte) : Z := Z.of_N (Byte.to_N b).

(** Storing a number in a [Uint8Array]: the value modulo 256. *)
Definition to_uint8 (v : Z) : Byte.byte :=
  default Byte.x00 (Byte.of_N (Z.to_N (v mod 256))).

(** Storing the result of [parseInt], where [None] stands for [NaN]:
    [NaN] is stored as 0. *)
Definition store_number (v : option Z) : Byte.byte :=
  match v with
  | Some n => to_uint8 n
  | None => Byte.x00
  end.

(** [String.fromCharCode(n)]: the code unit [n] modulo 2^16. *)
Definition fromCharCode (n : Z) : Z := n mod 65536.

(** [s.slice(start, end)]: negative positions count from the end, every
    position is clamped to the string, and [end] left out means the end
    of the string. *)
Definition js_slice (s : js_string) (start : Z) (end_ : option Z) : js_string :=
  let len := Z.of_nat (length s) in
  let clamp p := if p <? 0 then Z.max (len + p) 0 else Z.min p len in
  let from := clamp start in
  let to := match end_ with
            | None => len
            | Some e => clamp e
            end in
  if to <=? from then []
  else take (Z.to_nat (to - from)) (drop (Z.to_nat from) s).

(** [s.startsWith(p)]. *)
Fixpoint js_startsWith (s p : js_string) : bool :=
  match p, s with
  | [], _ => true
  | c :: p', d :: s' => (c =? d) && js_startsWith s' p'
  | _ :: _, [] => false
  end.

(** [s.split(sep)] for a separator of one code unit: the pieces between
    the separators, one piece for a string without separator. *)
Fixpoint js_split (sep : Z) (s : js_string) : list js_string :=
  match s with
  | [] => [[]]
  | c :: rest =>
      if c =? sep then [] :: js_split sep rest
      else match js_split sep rest with
           | piece :: pieces => (c :: piece) :: pieces
           | [] => [[c]]
           end
  end.

(** ** [shortAddress] *)

(** The argument is optional: [None] is [undefined].  [!address] holds
    for [undefined] and for the empty string. *)
Definition shortAddress (address : option js_string) : js_string :=
  match address with
  | None => lit "--"
  | Some [] => lit "--"
  | Some a => js_slice a 0 (Some 6) ++ lit "..." ++ js_slice a (-4) None
  end.

(** ** Base64: [btoa] and [atob] *)

(** The base64 alphabet: A-Z, a-z, 0-9, + and /. *)
Definition base64_char (i : Z) : Z :=
  if i <? 26 then 65 + i
  else if i <? 52 then 97 + (i - 26)
  else if i <? 62 then 48 + (i - 52)
  else if i =? 62 then 43
  else 47.

Definition base64_index (c : Z) : option Z :=
  if (65 <=? c) && (c <=? 90) then Some (c - 65)
  else if (97 <=? c) && (c <=? 122) then Some (c - 97 + 26)
  else if (48 <=? c) && (c <=? 57) then Some (c - 48 + 52)
  else if c =? 43 then Some 62
  else if c =? 47 then Some 63
  else None.

(** Three bytes make four groups of six bits; one or two bytes left
    over make two or three groups, the last one filled with zero bits. *)
Fixpoint bytes_to_sextets (bs : list Z) : list Z :=
  match bs with
  | a :: b :: c :: rest =>
      a / 4 :: (a mod 4) * 16 + b / 16 :: (b mod 16) * 4 + c / 64 :: c mod 64
        :: bytes_to_sextets rest
  | [a; b] => [a / 4; (a mod 4) * 16 + b / 16; (b mod 16) * 4]
  | [a] => [a / 4; (a mod 4) * 16]
  | [] => []
  end.

(** The [=] signs that fill the last group of four characters. *)
Definition base64_padding (n : nat) : js_string :=
  match (n mod 3)%nat with
  | 1%nat => [61; 61]
  | 2%nat => [61]
  | _ => []
  end.

Definition base64_encode (bs : list Z) : js_string :=
  map base64_char (bytes_to_sextets bs) ++ base64_padding (length bs).

(** [btoa(s)]: the base64 text of a string whose code units are bytes;
    it throws ([None]) when a code unit is above 255. *)
Definition btoa (s : js_string) : option js_string :=
  if forallb (fun c => c <=? 255) s then Some (base64_encode s) else None.

Definition is_ascii_whitespace (c : Z) : bool :=
  (c =? 9) || (c =? 10) || (c =? 12) || (c =? 13) || (c =? 32).

(** When the length is a multiple of four, one or two [=] at the end
    are dropped. *)
Definition strip_padding (d : js_string) : js_string :=
  if Z.of_nat (length d) mod 4 =? 0 then
    match rev d with
    | c1 :: c2 :: r =>
        if c1 =? 61 then (if c2 =? 61 then rev r else rev (c2 :: r)) else d
    | [c1] => if c1 =? 61 then [] else d
    | [] => d
    end
  else d.

Fixpoint chars_to_sextets (d : js_string) : option (list Z) :=
  match d with
  | [] => Some []
  | c :: rest =>
      match base64_index c, chars_to_sextets rest with
      | Some i, Some l => Some (i :: l)
      | _, _ => None
      end
  end.

(** Four groups of six bits make three bytes; of three or two groups
    left over, the bits that do not fill a byte are dropped. *)
Fixpoint sextets_to_bytes (l : list Z) : list Z :=
  match l with
  | s1 :: s2 :: s3 :: s4 :: rest =>
      s1 * 4 + s2 / 16 :: (s2 mod 16) * 16 + s3 / 4 :: (s3 mod 4) * 64 + s4
        :: sextets_to_bytes rest
  | [s1; s2; s3] => [s1 * 4 + s2 / 16; (s2 mod 16) * 16 + s3 / 4]
  | [s1; s2] => [s1 * 4 + s2 / 16]
  | _ => []
  end.

(** [atob(data)]: ASCII whitespace is ignored and padding dropped; it
    throws ([None]) when one character is left over after groups of four
    or when a character is outside the alphabet. *)
Definition atob (data : js_string) : option js_string :=
  let d :=
    strip_padding (List.filter (fun c => negb (is_ascii_whitespace c)) data) in
  if Z.of_nat (length d) mod 4 =? 1 then None
  else match chars_to_sextets d with
       | Some l => Some (sextets_to_bytes l)
       | None => None
       end.

(** ** [bytesToBase64] and [base64ToBytes] *)

(** The loop appends one character per byte to [binary]. *)
Definition bytesToBase64 (bytes : list Byte.byte) : option js_string :=
  let binary :=
    fold_left (fun binary byte => binary ++ [fromCharCode (byte_value byte)])
      bytes [] in
  btoa binary.

(** [bytes[i] = binary.charCodeAt(i)] for every index of [binary]. *)
Definition base64ToBytes (base64 : js_string) : option (list Byte.byte) :=
  match atob base64 with
  | Some binary => Some (map to_uint8 binary)
  | None => None
  end.

(** ** [parseInt(_, 16)] and [hexToBytes] *)

(** White space and line terminators, which [parseInt] skips at the
    start of its argument. *)
Definition is_white_space (c : Z) : bool :=
  existsb (Z.eqb c)
    [9; 10; 11; 12; 13; 32; 160; 5760; 8192; 8193; 8194; 8195; 8196; 8197;
     8198; 8199; 8200; 8201; 8202; 8232; 8233; 8239; 8287; 12288; 65279].

Fixpoint trim_start (s : js_string) : js_string :=
  match s with
  | c :: rest => if is_white_space c then trim_start rest else s
  | [] => []
  end.

Definition hex_digit (c : Z) : option Z :=
  if (48 <=? c) && (c <=? 57) then Some (c - 48)
  else if (97 <=? c) && (c <=? 102) then Some (c - 87)
  else if (65 <=? c) && (c <=? 70) then Some (c - 55)
  else None.

(** The value of the longest run of hex digits at the start of [s],
    continuing from [acc]; [None] when no digit was read. *)
Fixpoint hex_run (acc : option Z) (s : js_string) : option Z :=
  match s with
  | c :: rest =>
      match hex_digit c with
      | Some d => hex_run (Some (default 0 acc * 16 + d)) rest
      | None => acc
      end
  | [] => acc
  end.

(** [parseInt(s, 16)], [None] for [NaN]: leading white space, then a
    sign, then [0x] or [0X], then as many hex digits as there are.  The
    result is exact below 2^53; [hexToBytes] passes two code units. *)
Definition parseInt16 (s : js_string) : option Z :=
  let s1 := trim_start s in
  let sign := match s1 with
              | c :: _ => if c =? 45 then -1 else 1
              | [] => 1
              end in
  let s2 := match s1 with
            | c :: rest => if (c =? 45) || (c =? 43) then rest else s1
            | [] => s1
            end in
  let s3 := match s2 with
            | c :: x :: rest =>
                if (c =? 48) && ((x =? 120) || (x =? 88)) then rest else s2
            | _ => s2
            end in
  match hex_run None s3 with
  | Some v => Some (sign * v)
  | None => None
  end.

(** The loop of [hexToBytes]: the array has [normalized.length / 2]
    entries, rounded down; entry [i] is read from the two code units at
    [2 i]. *)
Definition hexToBytes_loop (normalized : js_string) : list Byte.byte :=
  map (fun i : nat =>
         store_number
           (parseInt16
              (js_slice normalized (Z.of_nat i * 2)
                 (Some (Z.of_nat i * 2 + 2)))))
      (seq 0 (Z.to_nat (Z.of_nat (length normalized) / 2))).

Definition hexToBytes (hex : js_string) : list Byte.byte :=
  let normalized :=
    if js_startsWith hex (lit "0x") then js_slice hex 2 None else hex in
  hexToBytes_loop normalized.

(** What [hexToBytes] is meant to compute on hex digits: one byte for
    each pair of digits. *)
Fixpoint hex_pairs (s : js_string) : list Byte.byte :=
  match s with
  | hi :: lo :: rest =>
      to_uint8 (default 0 (hex_digit hi) * 16 + default 0 (hex_digit lo))
        :: hex_pairs rest
  | _ => []
  end.

(** ** [BigInt(_)], [toString(16)], [padStart] and
    [normalizeDecryptedAddress] *)

Definition trim_end (s : js_string) : js_string := rev (trim_start (rev s)).

(** The value of a digit or letter in the given radix. *)
Definition digit_value (radix c : Z) : option Z :=
  let d := if (48 <=? c) && (c <=? 57) then Some (c - 48)
           else if (97 <=? c) && (c <=? 122) then Some (c - 87)
           else if (65 <=? c) && (c <=? 90) then Some (c - 55)
           else None in
  match d with
  | Some v => if v <? radix then Some v else None
  | None => None
  end.

(** The number spelled by [s] after the digits already read as [acc];
    [None] when a code unit is not a digit of the radix. *)
Fixpoint digits_value (radix acc : Z) (s : js_string) : option Z :=
  match s with
  | [] => Some acc
  | c :: rest =>
      match digit_value radix c with
      | Some d => digits_value radix (acc * radix + d) rest
      | None => None
      end
  end.

(** At least one digit is required. *)
Definition parse_digits (radix : Z) (s : js_string) : option Z :=
  match s with
  | [] => None
  | _ :: _ => digits_value radix 0 s
  end.

(** [BigInt(s)] for a string: white space around the text is dropped;
    the empty text is 0; otherwise the text is decimal digits with an
    optional sign, or [0x], [0o] or [0b] (in either case) followed by
    digits of that radix.  [None]: a [SyntaxError] is thrown. *)
Definition StringToBigInt (s : js_string) : option Z :=
  let t := trim_end (trim_start s) in
  match t with
  | [] => Some 0
  | c :: rest =>
      if c =? 43 then parse_digits 10 rest
      else if c =? 45 then option_map Z.opp (parse_digits 10 rest)
      else
        match rest with
        | x :: digits =>
            if (c =? 48) && ((x =? 120) || (x =? 88)) then parse_digits 16 digits
            else if (c =? 48) && ((x =? 111) || (x =? 79)) then parse_digits 8 digits
            else if (c =? 48) && ((x =? 98) || (x =? 66)) then parse_digits 2 digits
            else parse_digits 10 t
        | [] => parse_digits 10 t
        end
  end.

Definition hex_char (d : Z) : Z := if d <? 10 then 48 + d else 87 + d.

(** The hex digits of [n], most significant first, in front of [acc];
    [fuel] bounds the number of digits. *)
Fixpoint hex_digits_fuel (fuel : nat) (n : Z) (acc : js_string) : js_string :=
  match fuel with
  | O => acc
  | S fuel' =>
      let acc' := hex_char (n mod 16) :: acc in
      if n / 16 =? 0 then acc' else hex_digits_fuel fuel' (n / 16) acc'
  end.

Definition hex_digits (n : Z) : js_string :=
  hex_digits_fuel (S (Z.to_nat (Z.log2 n))) n [].

(** [n.toString(16)] for a BigInt: lower-case digits, no leading zero,
    a minus sign in front of a negative number. *)
Definition bigint_toString16 (n : Z) : js_string :=
  if n <? 0 then 45 :: hex_digits (- n) else hex_digits n.

(** [s.padStart(targetLength, fill)] with a filler of one code unit:
    nothing is cut from a longer string. *)
Definition padStart (s : js_string) (targetLength : nat) (fill : Z) : js_string :=
  repeat fill (targetLength - length s) ++ s.

(** A value that starts with [0x] is kept; any other is read as a
    BigInt and written as [0x] and at least 40 hex digits.  [None]:
    [BigInt] throws. *)
Definition normalizeDecryptedAddress (value : js_string) : option js_string :=
  if js_startsWith value (lit "0x") then Some value
  else
    match StringToBigInt value with
    | Some n => Some (lit "0x" ++ padStart (bigint_toString16 n) 40 48)
    | None => None
    end.

(** ** Encrypting and decrypting a document body *)

Section Crypto.

(** [crypto.subtle.digest('SHA-256', _)]. *)
Variable sha256 : list Byte.byte -> list Byte.byte.

(** AES-GCM of [crypto.subtle] under a raw key, with the initialisation
    vector as second argument; decryption rejects ([None]) what it
    cannot authenticate. *)
Variable aes_gcm_encrypt :
  list Byte.byte -> list Byte.byte -> list Byte.byte -> list Byte.byte.
Variable aes_gcm_decrypt :
  list Byte.byte -> list Byte.byte -> list Byte.byte -> option (list Byte.byte).

(** [TextEncoder.encode] and [TextDecoder.decode]. *)
Variable utf8_encode : js_string -> list Byte.byte.
Variable utf8_decode : list Byte.byte -> js_string.

(** The key is the SHA-256 digest of the bytes of the address. *)
Definition deriveAesKey (address : js_string) : list Byte.byte :=
  sha256 (hexToBytes address).

(** [iv] is the value drawn by [crypto.getRandomValues] for this call.
    The payload is the base64 text of [iv], a colon, and the base64
    text of the cipher bytes. *)
Definition encryptWithAddressKey (plainText address : js_string)
    (iv : list Byte.byte) : option js_string :=
  let key := deriveAesKey address in
  let encoded := utf8_encode plainText in
  let cipherBytes := aes_gcm_encrypt key iv encoded in
  match bytesToBase64 iv, bytesToBase64 cipherBytes with
  | Some ivText, Some cipherText => Some (ivText ++ lit ":" ++ cipherText)
  | _, _ => None
  end.

(** An empty payload, and a payload whose first or second piece is
    missing or empty, is read as the empty text.  [None]: the call
    rejects, because a piece is not base64 or the cipher text is not
    authentic. *)
Definition decryptWithAddressKey (payload address : js_string)
    : option js_string :=
  match payload with
  | [] => Some []
  | _ :: _ =>
      match js_split 58 payload with
      | (_ :: _) as ivPart :: ((_ :: _) as dataPart) :: _ =>
          let key := deriveAesKey address in
          match base64ToBytes ivPart with
          | None => None
          | Some iv =>
              match base64ToBytes dataPart with
              | None => None
              | Some data =>
                  match aes_gcm_decrypt key iv data with
                  | None => None
                  | Some clearBuffer => Some (utf8_decode clearBuffer)
                  end
              end
          end
      | _ => Some []
      end
  end.

End Crypto.

(** Stand-ins for the cryptographic primitives, for examples: the
    digest keeps its input, sealing puts the initialisation vector in
    front of the text, opening removes it again, and the text codec
    works on code units below 256. *)
Definition demo_digest (bs : list Byte.byte) : list Byte.byte := bs.
Definition demo_seal (key iv text : list Byte.byte) : list Byte.byte :=
  iv ++ text.
Definition demo_open (key iv sealed : list Byte.byte)
    : option (list Byte.byte) :=
  Some (drop (length iv) sealed).
Definition demo_utf8_encode (s : js_string) : list Byte.byte := map to_uint8 s.
Definition demo_utf8_decode (bs : list Byte.byte) : js_string :=
  map byte_value bs.

(** ** Reads after writes *)

Lemma documentAt_set_document (s : State) (i j : uint256) (d : Document) :
  documentAt (set_document i d s) j = if decide (i = j) then d else documentAt s j.
Proof.
  unfold documentAt, set_document; simpl.
  rewrite lookup_insert. by repeat case_decide.
Qed.

Lemma editorAt_set_editor (s : State) (i j : uint256) (u v : address) (b : bool) :
  editorAt (set_editor i u b s) j v =
  if decide ((i, u) = (j, v)) then b else editorAt s j v.
Proof.
  unfold editorAt, set_editor; simpl.
  rewrite lookup_insert. by repeat case_decide.
Qed.

Lemma documentAt_init (i : uint256) : documentAt init i = Document_zero.
Proof. unfold documentAt, init; simpl. by rewrite lookup_empty. Qed.

Lemma editorAt_init (i : uint256) (u : address) : editorAt init i u = false.
Proof. unfold editorAt, init; simpl. by rewrite lookup_empty. Qed.

Section Effects.

Variable this : address.
Variable FHE_fromExternal : externalEaddress -> bytes -> option eaddress.

Lemma createDocument_eq env nm h proof s :
  createDocument this FHE_fromExternal env nm h proof s =
  if _documentCount s >=? MAX_UINT256 then Revert (Panic 17)
  else match FHE_fromExternal h proof with
       | Some key => Ok (_documentCount s + 1, created this env nm key s)
       | None => Revert InvalidInput
       end.
Proof.
  unfold createDocument, pre_increment_documentCount, fromExternal, bind, gets.
  destruct (_documentCount s >=? MAX_UINT256); [reflexivity|].
  simpl. destruct (FHE_fromExternal h proof); reflexivity.
Qed.

Lemma updateDocument_eq env documentId body s :
  updateDocument env documentId body s =
  if owner (documentAt s documentId) =? address_zero
  then Revert (DocumentNotFound documentId)
  else if editorAt s documentId (msg_sender env)
       then Ok (tt, updated env documentId body s)
       else Revert (NotAuthorized (msg_sender env)).
Proof.
  unfold updateDocument, view, _getDocument, bind, gets.
  destruct (owner (documentAt s documentId) =? address_zero); [reflexivity|].
  destruct (editorAt s documentId (msg_sender env)); [|reflexivity].
  simpl. unfold modify, emit, modify, updated. do 3 f_equal.
  rewrite documentAt_set_document. rewrite decide_True by done.
  unfold set_document; simpl. f_equal.
  by rewrite insert_insert_eq.
Qed.

Lemma grantAccess_eq env documentId user s :
  grantAccess env documentId user s =
  if user =? address_zero then Revert InvalidAddress
  else if owner (documentAt s documentId) =? address_zero
       then Revert (DocumentNotFound documentId)
       else if msg_sender env =? owner (documentAt s documentId)
            then Ok (tt, granted documentId user s)
            else Revert (NotAuthorized (msg_sender env)).
Proof.
  unfold grantAccess, view, _getDocument, bind, gets.
  destruct (user =? address_zero); [reflexivity|].
  destruct (owner (documentAt s documentId) =? address_zero); [reflexivity|].
  destruct (msg_sender env =? owner (documentAt s documentId)); reflexivity.
Qed.

End Effects.

(** ** Reads in the state after each call *)

Lemma count_created this env nm key s :
  _documentCount (created this env nm key s) = _documentCount s + 1.
Proof. reflexivity. Qed.

Lemma documentAt_created this env nm key s j :
  documentAt (created this env nm key s) j =
  if decide (_documentCount s + 1 = j)
  then {| name := nm; encryptedBody := EmptyString; encryptedKey := key;
          owner := msg_sender env; createdAt := block_timestamp env;
          updatedAt := block_timestamp env |}
  else documentAt s j.
Proof.
  unfold created, documentAt; simpl.
  rewrite lookup_insert. by repeat case_decide.
Qed.

Lemma editorAt_created this env nm key s j v :
  editorAt (created this env nm key s) j v =
  if decide ((_documentCount s + 1, msg_sender env) = (j, v)) then true
  else editorAt s j v.
Proof.
  unfold created, editorAt; simpl.
  rewrite lookup_insert. by repeat case_decide.
Qed.

Lemma count_updated env i body s :
  _documentCount (updated env i body s) = _documentCount s.
Proof. reflexivity. Qed.

Lemma documentAt_updated env i body s j :
  documentAt (updated env i body s) j =
  if decide (i = j)
  then with_updatedAt (block_timestamp env)
         (with_encryptedBody body (documentAt s i))
  else documentAt s j.
Proof.
  unfold updated. change (documentAt (add_event ?e ?t) j) with (documentAt t j).
  apply documentAt_set_document.
Qed.

Lemma editorAt_updated env i body s j v :
  editorAt (updated env i body s) j v = editorAt s j v.
Proof. reflexivity. Qed.

Lemma count_granted i u s : _documentCount (granted i u s) = _documentCount s.
Proof. reflexivity. Qed.

Lemma documentAt_granted i u s j : documentAt (granted i u s) j = documentAt s j.
Proof. reflexivity. Qed.

Lemma editorAt_granted i u s j v :
  editorAt (granted i u s) j v =
  if decide ((i, u) = (j, v)) then true else editorAt s j v.
Proof.
  unfold granted, editorAt; simpl.
  rewrite lookup_insert. by repeat case_decide.
Qed.

(** ** Every transaction is a step *)

Section Steps.

Variable this : address.
Variable F : externalEaddress -> bytes -> option eaddress.

Lemma transact_step s tx : step this s (fst (transact this F s tx)).
Proof.
  destruct tx as [env [nm h proof | i body | i u]];
    unfold transact, dispatch, bind; simpl.
  - rewrite createDocument_eq.
    destruct (Z.geb_spec (_documentCount s) MAX_UINT256); simpl;
      [apply step_revert|].
    destruct (F h proof); simpl;
      [by apply step_create | apply step_revert].
  - rewrite updateDocument_eq.
    destruct (Z.eqb_spec (owner (documentAt s i)) address_zero); simpl;
      [apply step_revert|].
    destruct (editorAt s i (msg_sender env)) eqn:E; simpl;
      [by apply step_update | apply step_revert].
  - rewrite grantAccess_eq.
    destruct (Z.eqb_spec u address_zero); simpl; [apply step_revert|].
    destruct (Z.eqb_spec (owner (documentAt s i)) address_zero); simpl;
      [apply step_revert|].
    destruct (Z.eqb_spec (msg_sender env) (owner (documentAt s i))); simpl;
      [by apply (step_grant this s env) | apply step_revert].
Qed.

Lemma run_cons s tx txs :
  run this F s (tx :: txs) =
  (fst (run this F (fst (transact this F s tx)) txs),
   snd (transact this F s tx)
     :: snd (run this F (fst (transact this F s tx)) txs)).
Proof.
  simpl. destruct (transact this F s tx) as [s1 r]; simpl.
  by destruct (run this F s1 txs).
Qed.

(** A property of states that holds where the run starts and is kept
    by every step holds where the run ends. *)
Lemma run_preserves (P : State -> Prop) :
  (forall s s', P s -> step this s s' -> P s') ->
  forall txs s, P s -> P (fst (run this F s txs)).
Proof.
  intros Hstep txs. induction txs as [|tx txs IH]; intros s Hs; [done|].
  rewrite run_cons; simpl. apply IH. eapply Hstep; [exact Hs|].
  apply transact_step.
Qed.

Lemma reachable_ind (P : State -> Prop) :
  P init ->
  (forall s s', P s -> step this s s' -> P s') ->
  forall s, reachable this F s -> P s.
Proof.
  intros H0 Hstep s [txs <-]. by apply run_preserves.
Qed.

Lemma reachable_run s txs :
  reachable this F s -> reachable this F (fst (run this F s txs)).
Proof.
  intros [txs0 <-]. exists (txs0 ++ txs).
  revert txs. generalize init.
  induction txs0 as [|tx txs0 IH]; intros s0 txs; [done|].
  rewrite <- app_comm_cons, !run_cons; simpl. apply IH.
Qed.

End Steps.

(** ** The invariant *)

Lemma invariant_init : invariant init.
Proof.
  split; unfold exists_document; intros;
    rewrite ?documentAt_init, ?editorAt_init; done.
Qed.

Lemma invariant_step this s s' : invariant s -> step this s s' -> invariant s'.
Proof.
  intros [Hc Hfd Hfe Hoe Hze] Hs.
  destruct Hs as [ | env nm key Hlt | env i body Hex Hed | env i u Hu Hex Hown].
  - by split.
  - split; unfold exists_document in *.
    + rewrite count_created. lia.
    + intros j Hj. rewrite count_created in Hj.
      rewrite documentAt_created. case_decide; [lia|]. apply Hfd. lia.
    + intros j v Hj. rewrite count_created in Hj.
      rewrite editorAt_created. case_decide as E; [inversion E; lia|].
      apply Hfe. lia.
    + intros j. rewrite documentAt_created, editorAt_created.
      destruct (decide (_documentCount s + 1 = j)) as [<-|Hne]; simpl.
      * intros _. by rewrite decide_True.
      * intros Hj. case_decide; [done|]. by apply Hoe.
    + intros j. rewrite documentAt_created, editorAt_created.
      destruct (decide (_documentCount s + 1 = j)) as [<-|Hne]; simpl.
      * intros Hsender. rewrite decide_False by congruence.
        apply Hfe. lia.
      * intros Hj. rewrite decide_False by congruence. by apply Hze.
  - split; unfold exists_document in *.
    + by rewrite count_updated.
    + intros j Hj. rewrite count_updated in Hj. rewrite documentAt_updated.
      case_decide as E; [|by apply Hfd]. subst j.
      rewrite (Hfe i (msg_sender env)) in Hed; done.
    + intros j v Hj. rewrite editorAt_updated. by apply Hfe.
    + intros j. rewrite documentAt_updated, editorAt_updated.
      case_decide as E; [subst j; simpl; intros _|]; by apply Hoe.
    + intros j. rewrite documentAt_updated, editorAt_updated.
      case_decide as E; [subst j; simpl; intros _|]; by apply Hze.
  - split; unfold exists_document in *.
    + by rewrite count_granted.
    + intros j Hj. rewrite documentAt_granted. by apply Hfd.
    + intros j v Hj. rewrite count_granted in Hj. rewrite editorAt_granted.
      case_decide as E; [|by apply Hfe]. inversion E; subst j.
      by rewrite (Hfd i Hj) in Hex.
    + intros j Hj. rewrite documentAt_granted in *. rewrite editorAt_granted.
      case_decide; [done|]. by apply Hoe.
    + intros j Hj. rewrite documentAt_granted in *. rewrite editorAt_granted.
      rewrite decide_False; [by apply Hze|]. intros E. inversion E. congruence.
Qed.

Lemma invariant_reachable this F s : reachable this F s -> invariant s.
Proof.
  apply reachable_ind; [apply invariant_init|]. apply invariant_step.
Qed.

(** ** What steps keep *)

(** No step removes an editor. *)
Lemma step_editor_kept this s s' i u :
  step this s s' -> editorAt s i u = true -> editorAt s' i u = true.
Proof.
  intros [ | env nm key _ | env j body _ _ | env j v _ _ _] H; [done|..].
  - rewrite editorAt_created. by case_decide.
  - by rewrite editorAt_updated.
  - rewrite editorAt_granted. by case_decide.
Qed.

(** No step changes the owner, name, key or creation time of an existing
    document. *)
Lemma step_document_kept this s s' i :
  invariant s -> step this s s' -> exists_document s i ->
  owner (documentAt s' i) = owner (documentAt s i) /\
  name (documentAt s' i) = name (documentAt s i) /\
  encryptedKey (documentAt s' i) = encryptedKey (documentAt s i) /\
  createdAt (documentAt s' i) = createdAt (documentAt s i).
Proof.
  intros Hinv [ | env nm key _ | env j body _ _ | env j v _ _ _] Hex; [done|..].
  - rewrite documentAt_created. case_decide as E; [|done].
    exfalso. apply Hex.
    rewrite (inv_fresh_document s Hinv i); [done|].
    pose proof (inv_count s Hinv). lia.
  - rewrite documentAt_updated. case_decide as E; [|done]. by subst j.
  - by rewrite documentAt_granted.
Qed.

Section Runs.

Variable this : address.
Variable F : externalEaddress -> bytes -> option eaddress.

Lemma invariant_run s txs : invariant s -> invariant (fst (run this F s txs)).
Proof.
  revert s. apply run_preserves. intros s s' Hs. by apply invariant_step.
Qed.

Lemma run_editor_kept s txs i u :
  editorAt s i u = true -> editorAt (fst (run this F s txs)) i u = true.
Proof.
  revert s. apply (run_preserves this F (fun s => editorAt s i u = true)).
  intros s s' H Hstep. by apply (step_editor_kept this s).
Qed.

Lemma run_owner_kept s txs i :
  invariant s -> exists_document s i ->
  invariant (fst (run this F s txs)) /\
  owner (documentAt (fst (run this F s txs)) i) = owner (documentAt s i).
Proof.
  intros Hinv Hex.
  pose (P := fun t => invariant t /\ owner (documentAt t i) = owner (documentAt s i)).
  apply (run_preserves this F P); [|by split].
  intros t t' [Ht Ho] Hstep. split; [by apply (invariant_step this t)|].
  rewrite <- Ho. apply (step_document_kept this t t' i Ht Hstep).
  unfold exists_document. by rewrite Ho.
Qed.

(** A creation that returns is a creation step. *)
Lemma createDocument_Ok env nm h proof s documentId s' :
  createDocument this F env nm h proof s = Ok (documentId, s') ->
  _documentCount s < MAX_UINT256 /\ documentId = _documentCount s + 1 /\
  exists key, F h proof = Some key /\ s' = created this env nm key s.
Proof.
  rewrite createDocument_eq.
  destruct (Z.geb_spec (_documentCount s) MAX_UINT256); [done|].
  destruct (F h proof) as [key|]; [|done].
  intros [= <- <-]. split; [lia|]. split; [done|]. by exists key.
Qed.

Lemma updateDocument_Ok env documentId body s :
  exists_document s documentId ->
  editorAt s documentId (msg_sender env) = true ->
  updateDocument env documentId body s = Ok (tt, updated env documentId body s).
Proof.
  intros Hex Hed. rewrite updateDocument_eq, Hed.
  by destruct (Z.eqb_spec (owner (documentAt s documentId)) address_zero).
Qed.

Lemma grantAccess_Ok env documentId user s s' :
  grantAccess env documentId user s = Ok (tt, s') ->
  user <> address_zero /\ exists_document s documentId /\
  msg_sender env = owner (documentAt s documentId) /\
  s' = granted documentId user s.
Proof.
  rewrite grantAccess_eq.
  destruct (Z.eqb_spec user address_zero); [done|].
  destruct (Z.eqb_spec (owner (documentAt s documentId)) address_zero); [done|].
  destruct (Z.eqb_spec (msg_sender env) (owner (documentAt s documentId)));
    [|done].
  by intros [= <-].
Qed.

Lemma isEditor_exists s documentId user :
  exists_document s documentId ->
  isEditor documentId user s = Ok (editorAt s documentId user).
Proof.
  unfold isEditor, _getDocument, exists_document. intros Hex.
  by destruct (Z.eqb_spec (owner (documentAt s documentId)) address_zero).
Qed.

Lemma getDocument_exists s documentId :
  exists_document s documentId ->
  getDocument documentId s =
  Ok (name (documentAt s documentId), encryptedBody (documentAt s documentId),
      encryptedKey (documentAt s documentId), owner (documentAt s documentId),
      createdAt (documentAt s documentId), updatedAt (documentAt s documentId)).
Proof.
  unfold getDocument, _getDocument, exists_document. intros Hex.
  by destruct (Z.eqb_spec (owner (documentAt s documentId)) address_zero).
Qed.

Lemma getDocument_absent s documentId :
  owner (documentAt s documentId) = address_zero ->
  getDocument documentId s = Revert (DocumentNotFound documentId).
Proof.
  unfold getDocument, _getDocument. by intros ->.
Qed.

(** *** Timestamps *)

(** A transaction whose timestamp is not before [t] keeps every stored
    timestamp at or before its own. *)
Lemma stamped_by_transact t s tx :
  stamped_by t s -> t <= block_timestamp (fst tx) ->
  stamped_by (block_timestamp (fst tx)) (fst (transact this F s tx)).
Proof.
  intros Hs Ht.
  assert (Hsame : stamped_by (block_timestamp (fst tx)) s).
  { intros i. destruct (Hs i). split; lia. }
  destruct tx as [env [nm h proof | i body | i u]];
    unfold transact, dispatch, bind; cbn [fst snd] in *.
  - rewrite createDocument_eq.
    destruct (_documentCount s >=? MAX_UINT256); [done|].
    destruct (F h proof) as [key|]; [|done]. cbn [ret fst].
    intros j. rewrite documentAt_created.
    case_decide; [simpl; lia | apply Hsame].
  - rewrite updateDocument_eq.
    destruct (owner (documentAt s i) =? address_zero); [done|].
    destruct (editorAt s i (msg_sender env)); [|done]. cbn [ret fst].
    intros j. rewrite documentAt_updated.
    case_decide; [|apply Hsame]. simpl. destruct (Hs i). lia.
  - rewrite grantAccess_eq.
    destruct (u =? address_zero); [done|].
    destruct (owner (documentAt s i) =? address_zero); [done|].
    by destruct (msg_sender env =? owner (documentAt s i)).
Qed.

(** Along a run whose block timestamps do not go back, every stored
    [updatedAt] is at most the time of the last transaction: an update
    sent after the run does not move [updatedAt] back. *)
Lemma stamped_by_run txs : forall t s,
  stamped_by t s -> clock_ordered t txs ->
  stamped_by (last_time t txs) (fst (run this F s txs)).
Proof.
  induction txs as [|tx txs IH]; intros t s Hs Hclock; [done|].
  destruct Hclock as [Ht Hrest]. rewrite run_cons. cbn [fst last_time].
  apply IH; [|done]. by apply (stamped_by_transact t).
Qed.

Lemma stamped_by_init t : 0 <= t -> stamped_by t init.
Proof. intros Ht i. by rewrite documentAt_init. Qed.

(** *** Granting, then editing *)

(** C1.  Let [documentId] be returned by a creation sent by [O], and let
    a later [grantAccess(documentId, X)] sent by [O], with [X] not the
    zero address, return.  From then on, after any further transactions,
    [isEditor(documentId, X)] is [true], and an [updateDocument] sent by
    [X] returns: it stores [body] as the document's encrypted body, moves
    [updatedAt] to the time of the call (so not back, as block time does
    not go back, see [stamped_by_run]), and leaves the other fields
    as they were. *)
Theorem grant_then_update s0 env0 nm h proof documentId s1 txs1 envg X s3 :
  reachable this F s0 ->
  createDocument this F env0 nm h proof s0 = Ok (documentId, s1) ->
  msg_sender envg = msg_sender env0 ->
  X <> address_zero ->
  grantAccess envg documentId X (fst (run this F s1 txs1)) = Ok (tt, s3) ->
  forall txs2 envu body,
    msg_sender envu = X ->
    let s4 := fst (run this F s3 txs2) in
    isEditor documentId X s4 = Ok true /\
    exists s5,
      updateDocument envu documentId body s4 = Ok (tt, s5) /\
      getDocument documentId s5 =
        Ok (name (documentAt s4 documentId), body,
            encryptedKey (documentAt s4 documentId), msg_sender env0,
            createdAt (documentAt s4 documentId), block_timestamp envu) /\
      encryptedBody (documentAt s5 documentId) = body /\
      updatedAt (documentAt s5 documentId) = block_timestamp envu /\
      (updatedAt (documentAt s4 documentId) <= block_timestamp envu ->
       updatedAt (documentAt s4 documentId) <= updatedAt (documentAt s5 documentId)).
Proof.
  intros Hreach Hcreate HO HX Hgrant txs2 envu body Hu s4.
  apply createDocument_Ok in Hcreate as (Hlt & Hid & key & _ & ->).
  apply grantAccess_Ok in Hgrant as (_ & Hex2 & Hown2 & ->).
  set (s2 := fst (run this F (created this env0 nm key s0) txs1)) in *.
  assert (Hinv2 : invariant s2).
  { apply invariant_run, (invariant_step this s0);
      [by apply (invariant_reachable this F) | by apply step_create]. }
  assert (Hinv3 : invariant (granted documentId X s2)).
  { apply (invariant_step this s2); [done|]. by apply (step_grant this s2 envg). }
  assert (Hex3 : exists_document (granted documentId X s2) documentId).
  { unfold exists_document. by rewrite documentAt_granted. }
  destruct (run_owner_kept _ txs2 documentId Hinv3 Hex3) as [Hinv4 Hown4].
  fold s4 in Hinv4, Hown4. rewrite documentAt_granted in Hown4.
  assert (Hex4 : exists_document s4 documentId).
  { unfold exists_document. by rewrite Hown4. }
  assert (Hed4 : editorAt s4 documentId X = true).
  { apply run_editor_kept. rewrite editorAt_granted. by rewrite decide_True. }
  split; [by rewrite isEditor_exists, Hed4|].
  exists (updated envu documentId body s4).
  split; [apply updateDocument_Ok; [done | by rewrite Hu]|].
  assert (Hdoc : documentAt (updated envu documentId body s4) documentId =
                 with_updatedAt (block_timestamp envu)
                   (with_encryptedBody body (documentAt s4 documentId))).
  { rewrite documentAt_updated. by rewrite decide_True. }
  rewrite getDocument_exists; unfold exists_document; rewrite Hdoc; simpl;
    [|done].
  rewrite Hown4, <- Hown2, HO. done.
Qed.

(** *** The owner is always an editor *)

(** C2.  In every reachable state, the owner of every existing document
    (one whose owner is set) is in that document's access set:
    [isEditor(documentId, owner)] is [true].  A creation that returns has
    put its sender in the access set of the new id, and no transaction
    removes a member. *)
Theorem owner_always_editor s :
  reachable this F s ->
  (forall documentId,
     exists_document s documentId ->
     isEditor documentId (owner (documentAt s documentId)) s = Ok true) /\
  (forall env nm h proof documentId s',
     createDocument this F env nm h proof s = Ok (documentId, s') ->
     owner (documentAt s' documentId) = msg_sender env /\
     editorAt s' documentId (msg_sender env) = true) /\
  (forall tx documentId user,
     editorAt s documentId user = true ->
     editorAt (fst (transact this F s tx)) documentId user = true).
Proof.
  intros Hreach. apply invariant_reachable in Hreach as Hinv.
  split; [|split].
  - intros i Hex. rewrite isEditor_exists by done.
    by rewrite (inv_owner_editor s Hinv).
  - intros env nm h proof i s' Hc.
    apply createDocument_Ok in Hc as (_ & -> & key & _ & ->).
    rewrite documentAt_created, editorAt_created.
    by rewrite !decide_True.
  - intros tx i u. apply (step_editor_kept this), transact_step.
Qed.

(** *** Identifiers *)

(** What a transaction reports about the counter: a creation that
    returns yields the counter plus one and stores it; anything else
    leaves the counter alone. *)
Lemma transact_count s tx :
  match snd (transact this F s tx) with
  | Ok (Some documentId) =>
      documentId = _documentCount s + 1 /\
      _documentCount (fst (transact this F s tx)) = _documentCount s + 1
  | _ => _documentCount (fst (transact this F s tx)) = _documentCount s
  end.
Proof.
  destruct tx as [env [nm h proof | i body | i u]];
    unfold transact, dispatch, bind; simpl.
  - rewrite createDocument_eq.
    destruct (_documentCount s >=? MAX_UINT256); [done|].
    by destruct (F h proof).
  - rewrite updateDocument_eq.
    destruct (owner (documentAt s i) =? address_zero); [done|].
    by destruct (editorAt s i (msg_sender env)).
  - rewrite grantAccess_eq.
    destruct (u =? address_zero); [done|].
    destruct (owner (documentAt s i) =? address_zero); [done|].
    by destruct (msg_sender env =? owner (documentAt s i)).
Qed.

(** From any state, the ids a run hands out continue the counter
    without a gap. *)
Lemma run_created_ids txs : forall s,
  created_ids (snd (run this F s txs)) =
    map (fun k => _documentCount s + Z.of_nat k)
        (seq 1 (length (created_ids (snd (run this F s txs))))) /\
  _documentCount (fst (run this F s txs)) =
    _documentCount s + Z.of_nat (length (created_ids (snd (run this F s txs)))).
Proof.
  induction txs as [|tx txs IH]; intros s.
  - simpl. split; [done | lia].
  - rewrite run_cons. cbn [fst snd].
    pose proof (transact_count s tx) as Hc.
    destruct (IH (fst (transact this F s tx))) as [IHids IHcount].
    destruct (snd (transact this F s tx)) as [[documentId|]|e]; cbn [created_ids].
    + destruct Hc as [-> Hc]. rewrite Hc in IHids, IHcount.
      rewrite IHcount. cbn [length seq map]. split; [|lia].
      f_equal. etransitivity; [exact IHids|].
      rewrite <- (seq_shift _ 1), map_map. apply map_ext. intros k. lia.
    + by rewrite <- Hc.
    + by rewrite <- Hc.
Qed.

Lemma in_ids_upto n documentId :
  In documentId (ids_upto n) <-> 1 <= documentId <= Z.of_nat n.
Proof.
  unfold ids_upto. rewrite in_map_iff. split.
  - intros (k & <- & Hk). apply in_seq in Hk. lia.
  - intros H. exists (Z.to_nat documentId). split; [lia|].
    apply in_seq. lia.
Qed.

(** From deployment, the ids handed out are 1, ..., n and the counter
    is n. *)
Lemma run_init_created_ids txs :
  created_ids (snd (run this F init txs)) =
    ids_upto (length (created_ids (snd (run this F init txs)))) /\
  _documentCount (fst (run this F init txs)) =
    Z.of_nat (length (created_ids (snd (run this F init txs)))).
Proof.
  destruct (run_created_ids txs init) as [Hids Hcount].
  change (_documentCount init) with 0 in Hids, Hcount.
  split; [|exact Hcount].
  rewrite Hids at 1. unfold ids_upto. apply map_ext. intros k. lia.
Qed.

(** C3.  For every sequence of transactions sent to the deployed
    contract, the ids returned by its successful creations are, in
    order, exactly 1, 2, ..., n.  [documentCount()] is then n, the
    number of successful creations, and 0 is not among the ids. *)
Theorem created_ids_dense txs :
  created_ids (snd (run this F init txs)) =
    ids_upto (length (created_ids (snd (run this F init txs)))) /\
  documentCount (fst (run this F init txs)) =
    Z.of_nat (length (created_ids (snd (run this F init txs)))) /\
  ~ In 0 (created_ids (snd (run this F init txs))).
Proof.
  destruct (run_init_created_ids txs) as [Hdense Hcount].
  split; [exact Hdense|]. split; [exact Hcount|].
  rewrite Hdense, in_ids_upto. lia.
Qed.

(** *** Reading a document that was never created *)

(** C4.  After any sequence of transactions, [getDocument] reverts with
    [DocumentNotFound] at id 0 and at every id that no successful
    creation returned.  Whether [getDocument] finds a document is decided
    by the stored owner being non-zero, in every state, and does not
    change with the value of the counter. *)
Theorem getDocument_never_created txs documentId :
  documentId = 0 \/ ~ In documentId (created_ids (snd (run this F init txs))) ->
  getDocument documentId (fst (run this F init txs)) =
    Revert (DocumentNotFound documentId) /\
  (forall s i,
     getDocument i s = Revert (DocumentNotFound i) <->
     owner (documentAt s i) = address_zero) /\
  (forall s i n, getDocument i (set_documentCount n s) = getDocument i s).
Proof.
  intros Hnot. split; [|split; [|done]].
  - apply getDocument_absent.
    destruct (run_init_created_ids txs) as [Hids Hcount].
    assert (Hout : ~ (1 <= documentId
                      <= _documentCount (fst (run this F init txs)))).
    { rewrite Hcount, <- in_ids_upto, <- Hids.
      destruct Hnot as [-> | H]; [|done].
      rewrite Hids, in_ids_upto. lia. }
    assert (Hinv : invariant (fst (run this F init txs)))
      by apply invariant_run, invariant_init.
    by rewrite (inv_fresh_document _ Hinv documentId Hout).
  - intros s i. split; [|apply getDocument_absent].
    unfold getDocument, _getDocument.
    by destruct (Z.eqb_spec (owner (documentAt s i)) address_zero).
Qed.

(** *** Calls that are refused *)

(** C5.  When the document exists and the sender is not in its access
    set, [updateDocument] reverts with [NotAuthorized(sender)]; the
    transaction leaves the whole state as it was, so the document's
    encrypted body and [updatedAt] keep their values. *)
Theorem update_by_non_member s env documentId body :
  exists_document s documentId ->
  editorAt s documentId (msg_sender env) = false ->
  updateDocument env documentId body s = Revert (NotAuthorized (msg_sender env)) /\
  transact this F s (env, UpdateDocument documentId body) =
    (s, Revert (NotAuthorized (msg_sender env))) /\
  encryptedBody
    (documentAt (fst (transact this F s (env, UpdateDocument documentId body)))
       documentId) = encryptedBody (documentAt s documentId) /\
  updatedAt
    (documentAt (fst (transact this F s (env, UpdateDocument documentId body)))
       documentId) = updatedAt (documentAt s documentId).
Proof.
  intros Hex Hed.
  assert (Hrev : updateDocument env documentId body s =
                 Revert (NotAuthorized (msg_sender env))).
  { rewrite updateDocument_eq, Hed.
    by destruct (Z.eqb_spec (owner (documentAt s documentId)) address_zero). }
  assert (Htx : transact this F s (env, UpdateDocument documentId body) =
                (s, Revert (NotAuthorized (msg_sender env)))).
  { unfold transact, dispatch, bind; cbn [fst snd]. by rewrite Hrev. }
  by rewrite Htx.
Qed.

(** C6.  When the document exists, the target is not the zero address
    and the sender is not the document's owner, [grantAccess] reverts
    with [NotAuthorized(sender)] and the state stays as it was.  Nothing
    is asked of the sender's place in the access set: an editor who is
    not the owner is refused like anyone else. *)
Theorem grant_by_non_owner s env documentId target :
  exists_document s documentId ->
  target <> address_zero ->
  msg_sender env <> owner (documentAt s documentId) ->
  grantAccess env documentId target s = Revert (NotAuthorized (msg_sender env)) /\
  transact this F s (env, GrantAccess documentId target) =
    (s, Revert (NotAuthorized (msg_sender env))).
Proof.
  intros Hex Ht Hown.
  assert (H : grantAccess env documentId target s =
              Revert (NotAuthorized (msg_sender env))).
  { rewrite grantAccess_eq.
    destruct (Z.eqb_spec target address_zero); [done|].
    destruct (Z.eqb_spec (owner (documentAt s documentId)) address_zero);
      [done|].
    by destruct (Z.eqb_spec (msg_sender env) (owner (documentAt s documentId))). }
  split; [done|].
  unfold transact, dispatch, bind; cbn [fst snd]. by rewrite H.
Qed.

Lemma isEditor_not_found s documentId user :
  owner (documentAt s documentId) = address_zero ->
  isEditor documentId user s = Revert (DocumentNotFound documentId).
Proof. unfold isEditor, _getDocument. by intros ->. Qed.

(** C7, as the contract has it.  [isEditor] looks the document up
    before it reads the access set: at an id whose document does not
    exist it reverts with [DocumentNotFound], for every address; it does
    not return [false]. *)
Theorem isEditor_absent s documentId user :
  ~ exists_document s documentId ->
  isEditor documentId user s = Revert (DocumentNotFound documentId).
Proof.
  unfold exists_document. intros Hno.
  apply isEditor_not_found.
  destruct (Z.eq_dec (owner (documentAt s documentId)) address_zero); [done|].
  by destruct Hno.
Qed.

(** *** Granting twice *)

(** C8.  In a reachable state, when [target] is already an editor of
    the document, a [grantAccess] for [target] sent by the owner returns,
    and afterwards [isEditor] answers as before at every id and address:
    the access set, the documents and the counter are unchanged. *)
Theorem regrant_is_noop s env documentId target :
  reachable this F s ->
  isEditor documentId target s = Ok true ->
  msg_sender env = owner (documentAt s documentId) ->
  exists s',
    grantAccess env documentId target s = Ok (tt, s') /\
    (forall i u, isEditor i u s' = isEditor i u s) /\
    _editors s' = _editors s /\
    _documents s' = _documents s /\
    _documentCount s' = _documentCount s.
Proof.
  intros Hreach Hed Hown. apply invariant_reachable in Hreach as Hinv.
  assert (Hex : exists_document s documentId).
  { intros Hno.
    by rewrite (isEditor_not_found s documentId target Hno) in Hed. }
  rewrite isEditor_exists in Hed by done. injection Hed as Hed.
  assert (Ht : target <> address_zero).
  { intros ->. by rewrite (inv_zero_editor s Hinv documentId Hex) in Hed. }
  exists (granted documentId target s).
  assert (Heds : _editors (granted documentId target s) = _editors s).
  { unfold granted; simpl. apply insert_id.
    unfold editorAt in Hed.
    destruct (_editors s !! (documentId, target)) as [[]|]; done. }
  split; [|split; [|done]].
  - rewrite grantAccess_eq.
    destruct (Z.eqb_spec target address_zero); [done|].
    destruct (Z.eqb_spec (owner (documentAt s documentId)) address_zero);
      [done|].
    by destruct (Z.eqb_spec (msg_sender env) (owner (documentAt s documentId))).
  - intros i u. unfold isEditor, _getDocument, editorAt.
    by rewrite documentAt_granted, Heds.
Qed.

(** *** Right after a creation *)

(** C9.  Let a creation sent by [caller] return [documentId]; [caller]
    is the sender of a transaction, which is never the zero address.  In
    the state right after, [isEditor(documentId, caller)] is [true] and
    [getDocument(documentId)] returns the given name, an empty encrypted
    body, the imported key, [caller] as owner, and the time of the call
    as both [createdAt] and [updatedAt]. *)
Theorem after_createDocument s env nm h proof documentId s' :
  msg_sender env <> address_zero ->
  createDocument this F env nm h proof s = Ok (documentId, s') ->
  isEditor documentId (msg_sender env) s' = Ok true /\
  exists key,
    F h proof = Some key /\
    getDocument documentId s' =
      Ok (nm, EmptyString, key, msg_sender env,
          block_timestamp env, block_timestamp env).
Proof.
  intros Hsender Hc.
  apply createDocument_Ok in Hc as (_ & -> & key & HF & ->).
  assert (Hdoc : documentAt (created this env nm key s) (_documentCount s + 1) =
                 {| name := nm; encryptedBody := EmptyString;
                    encryptedKey := key; owner := msg_sender env;
                    createdAt := block_timestamp env;
                    updatedAt := block_timestamp env |}).
  { rewrite documentAt_created. by rewrite decide_True. }
  assert (Hex : exists_document (created this env nm key s) (_documentCount s + 1)).
  { unfold exists_document. by rewrite Hdoc. }
  split.
  - rewrite isEditor_exists, editorAt_created by done.
    by rewrite decide_True.
  - exists key. split; [done|].
    rewrite getDocument_exists by done. by rewrite Hdoc.
Qed.

(** *** The target is checked first *)

(** C10.  [grantAccess] with the zero address as target reverts with
    [InvalidAddress] in every state, at every id and for every sender:
    whether the document exists and who owns it are not looked at. *)
Theorem grant_zero_target s env documentId :
  grantAccess env documentId address_zero s = Revert InvalidAddress /\
  transact this F s (env, GrantAccess documentId address_zero) =
    (s, Revert InvalidAddress).
Proof.
  assert (H : grantAccess env documentId address_zero s = Revert InvalidAddress)
    by (by rewrite grantAccess_eq).
  split; [done|].
  unfold transact, dispatch, bind; cbn [fst snd]. by rewrite H.
Qed.

End Runs.

(** ** The test scenario, run *)

Example demo_results :
  snd (run demo_this demo_fromExternal init demo_txs) =
  [Ok (Some 1); Revert (NotAuthorized bob); Revert (NotAuthorized bob);
   Ok None; Ok None].
Proof. vm_compute. reflexivity. Qed.

Example demo_final_document :
  getDocument 1 (fst (run demo_this demo_fromExternal init demo_txs)) =
  Ok ("Ops Manual"%string, "ciphertext"%string, 7, alice, 100, 104).
Proof. vm_compute. reflexivity. Qed.

Example demo_states :
  fst (run demo_this demo_fromExternal init [demo_create]) = demo_created /\
  fst (run demo_this demo_fromExternal init
         [demo_create; demo_update_refused; demo_grant_refused; demo_grant]) =
    demo_granted.
Proof. split; vm_compute; reflexivity. Qed.

(** ** The theorems at the test scenario *)

Lemma demo_granted_reachable : reachable demo_this demo_fromExternal demo_granted.
Proof.
  exists [demo_create; demo_update_refused; demo_grant_refused; demo_grant].
  vm_compute. reflexivity.
Defined.

Lemma grant_then_update_witness :
  createDocument demo_this demo_fromExternal (at_time alice 100)
    "Ops Manual" 7 demo_proof init = Ok (1, demo_created) /\
  grantAccess (at_time alice 103) 1 bob
    (fst (run demo_this demo_fromExternal demo_created
            [demo_update_refused; demo_grant_refused])) = Ok (tt, demo_granted) /\
  isEditor 1 bob demo_granted = Ok true /\
  exists s5,
    updateDocument (at_time bob 104) 1 "ciphertext" demo_granted = Ok (tt, s5) /\
    getDocument 1 s5 =
      Ok ("Ops Manual"%string, "ciphertext"%string, 7, alice, 100, 104).
Proof.
  assert (Hc : createDocument demo_this demo_fromExternal (at_time alice 100)
                 "Ops Manual" 7 demo_proof init = Ok (1, demo_created))
    by (vm_compute; reflexivity).
  assert (Hg : grantAccess (at_time alice 103) 1 bob
                 (fst (run demo_this demo_fromExternal demo_created
                         [demo_update_refused; demo_grant_refused])) =
               Ok (tt, demo_granted))
    by (vm_compute; reflexivity).
  assert (Hb : bob <> address_zero) by (unfold bob, address_zero; lia).
  split; [exact Hc|]. split; [exact Hg|].
  destruct (grant_then_update demo_this demo_fromExternal init
              (at_time alice 100) "Ops Manual" 7 demo_proof 1 demo_created
              [demo_update_refused; demo_grant_refused] (at_time alice 103)
              bob demo_granted (ex_intro _ [] eq_refl) Hc eq_refl Hb Hg
              [] (at_time bob 104) "ciphertext" eq_refl)
    as (H1 & s5 & H2 & H3 & _).
  split; [exact H1|]. exists s5. split; [exact H2 | exact H3].
Defined.

Lemma owner_always_editor_witness :
  reachable demo_this demo_fromExternal demo_granted /\
  exists_document demo_granted 1 /\
  isEditor 1 alice demo_granted = Ok true.
Proof.
  assert (Hex : exists_document demo_granted 1)
    by (vm_compute; discriminate).
  split; [exact demo_granted_reachable|]. split; [exact Hex|].
  exact (proj1 (owner_always_editor demo_this demo_fromExternal demo_granted
                  demo_granted_reachable) 1 Hex).
Defined.

Lemma getDocument_never_created_witness :
  ~ In 2 (created_ids (snd (run demo_this demo_fromExternal init demo_txs))) /\
  getDocument 2 (fst (run demo_this demo_fromExternal init demo_txs)) =
    Revert (DocumentNotFound 2).
Proof.
  assert (Hnot : ~ In 2 (created_ids
                           (snd (run demo_this demo_fromExternal init demo_txs))))
    by (vm_compute; intros [H|[]]; discriminate H).
  split; [exact Hnot|].
  exact (proj1 (getDocument_never_created demo_this demo_fromExternal
                  demo_txs 2 (or_intror Hnot))).
Defined.

Lemma update_by_non_member_witness :
  exists_document demo_created 1 /\
  editorAt demo_created 1 bob = false /\
  transact demo_this demo_fromExternal demo_created demo_update_refused =
    (demo_created, Revert (NotAuthorized bob)).
Proof.
  assert (Hex : exists_document demo_created 1) by (vm_compute; discriminate).
  assert (Hed : editorAt demo_created 1 bob = false) by (vm_compute; reflexivity).
  split; [exact Hex|]. split; [exact Hed|].
  exact (proj1 (proj2 (update_by_non_member demo_this demo_fromExternal
                         demo_created (at_time bob 101) 1 "ciphertext"
                         Hex Hed))).
Defined.

Lemma grant_by_non_owner_witness :
  exists_document demo_granted 1 /\
  editorAt demo_granted 1 bob = true /\
  bob <> owner (documentAt demo_granted 1) /\
  grantAccess (at_time bob 105) 1 carol demo_granted =
    Revert (NotAuthorized bob).
Proof.
  assert (Hex : exists_document demo_granted 1) by (vm_compute; discriminate).
  assert (Hed : editorAt demo_granted 1 bob = true) by (vm_compute; reflexivity).
  assert (Hc : carol <> address_zero) by (unfold carol, address_zero; lia).
  assert (Hno : bob <> owner (documentAt demo_granted 1))
    by (vm_compute; discriminate).
  split; [exact Hex|]. split; [exact Hed|]. split; [exact Hno|].
  exact (proj1 (grant_by_non_owner demo_this demo_fromExternal demo_granted
                  (at_time bob 105) 1 carol Hex Hc Hno)).
Defined.

(** C7 as the spec words it fails already at deployment: no document
    has id 1 yet, and [isEditor(1, alice)] reverts instead of returning
    [false]. *)
Lemma isEditor_absent_counterexample :
  ~ exists_document init 1 /\
  isEditor 1 alice init = Revert (DocumentNotFound 1) /\
  isEditor 1 alice init <> Ok false.
Proof.
  split; [|split].
  - vm_compute. intros H. by apply H.
  - vm_compute. reflexivity.
  - vm_compute. discriminate.
Qed.

Lemma isEditor_absent_witness :
  ~ exists_document demo_granted 2 /\
  isEditor 2 bob demo_granted = Revert (DocumentNotFound 2).
Proof.
  assert (Hno : ~ exists_document demo_granted 2)
    by (vm_compute; intros H; apply H; reflexivity).
  split; [exact Hno|].
  exact (isEditor_absent demo_granted 2 bob Hno).
Defined.

Lemma regrant_is_noop_witness :
  isEditor 1 bob demo_granted = Ok true /\
  exists s',
    grantAccess (at_time alice 105) 1 bob demo_granted = Ok (tt, s') /\
    (forall i u, isEditor i u s' = isEditor i u demo_granted).
Proof.
  assert (Hed : isEditor 1 bob demo_granted = Ok true)
    by (vm_compute; reflexivity).
  split; [exact Hed|].
  destruct (regrant_is_noop demo_this demo_fromExternal demo_granted
              (at_time alice 105) 1 bob demo_granted_reachable Hed eq_refl)
    as (s' & Hg & Hsame & _).
  exists s'. split; [exact Hg | exact Hsame].
Defined.

Lemma after_createDocument_witness :
  alice <> address_zero /\
  createDocument demo_this demo_fromExternal (at_time alice 100)
    "Ops Manual" 7 demo_proof init = Ok (1, demo_created) /\
  isEditor 1 alice demo_created = Ok true /\
  getDocument 1 demo_created =
    Ok ("Ops Manual"%string, EmptyString, 7, alice, 100, 100).
Proof.
  assert (Ha : alice <> address_zero) by (unfold alice, address_zero; lia).
  assert (Hc : createDocument demo_this demo_fromExternal (at_time alice 100)
                 "Ops Manual" 7 demo_proof init = Ok (1, demo_created))
    by (vm_compute; reflexivity).
  split; [exact Ha|]. split; [exact Hc|].
  destruct (after_createDocument demo_this demo_fromExternal init
              (at_time alice 100) "Ops Manual" 7 demo_proof 1 demo_created
              Ha Hc) as (H1 & key & HF & H2).
  split; [exact H1|].
  injection HF as <-. exact H2.
Defined.

(** ** Remarks *)

(** The existence test reads the owner, not the counter.  A creation
    whose sender were the zero address would take id 1 and advance the
    counter, yet leave no document that [getDocument] finds.  Signed
    transactions never have the zero address as sender. *)
Remark createDocument_zero_sender :
  transact demo_this demo_fromExternal init
    (at_time address_zero 100, CreateDocument "Ghost" 7 demo_proof)
  = (created demo_this (at_time address_zero 100) "Ghost" 7 init,
     Ok (Some 1)) /\
  documentCount (created demo_this (at_time address_zero 100) "Ghost" 7 init)
  = 1 /\
  getDocument 1 (created demo_this (at_time address_zero 100) "Ghost" 7 init)
  = Revert (DocumentNotFound 1).
Proof. repeat split; vm_compute; reflexivity. Qed.

(** In the test scenario block time moves on, and every stored
    timestamp is at most that of the last transaction. *)
Remark demo_clock :
  clock_ordered 0 demo_txs /\
  stamped_by 104 (fst (run demo_this demo_fromExternal init demo_txs)).
Proof.
  assert (Hclock : clock_ordered 0 demo_txs) by (simpl; lia).
  split; [exact Hclock|].
  apply (stamped_by_run demo_this demo_fromExternal demo_txs 0 init);
    [by apply stamped_by_init | exact Hclock].
Qed.

(** The counter is a [uint256]: at its largest value the checked [++]
    aborts the creation, and no id is handed out. *)
Remark createDocument_overflow :
  createDocument demo_this demo_fromExternal (at_time alice 100)
    "Ops Manual" 7 demo_proof (set_documentCount MAX_UINT256 init)
  = Revert (Panic 17).
Proof. vm_compute. reflexivity. Qed.

(** * Further properties of the contract *)

Section Ledger.

Variable this : address.
Variable F : externalEaddress -> bytes -> option eaddress.

(** What a transaction did, read off its result: it reverted and kept
    the state, or it is the creation, update or grant it asked for, with
    every check passed. *)
Lemma transact_cases s env c :
  (exists e, transact this F s (env, c) = (s, Revert e)) \/
  (exists nm h proof key,
     c = CreateDocument nm h proof /\ F h proof = Some key /\
     _documentCount s < MAX_UINT256 /\
     transact this F s (env, c) =
       (created this env nm key s, Ok (Some (_documentCount s + 1)))) \/
  (exists documentId body,
     c = UpdateDocument documentId body /\
     exists_document s documentId /\
     editorAt s documentId (msg_sender env) = true /\
     transact this F s (env, c) = (updated env documentId body s, Ok None)) \/
  (exists documentId user,
     c = GrantAccess documentId user /\
     user <> address_zero /\ exists_document s documentId /\
     msg_sender env = owner (documentAt s documentId) /\
     transact this F s (env, c) = (granted documentId user s, Ok None)).
Proof.
  destruct c as [nm h proof | i body | i u];
    unfold transact, dispatch, bind; cbn [fst snd].
  - rewrite createDocument_eq.
    destruct (Z.geb_spec (_documentCount s) MAX_UINT256); [left; eauto|].
    destruct (F h proof) as [key|] eqn:HF; [|left; eauto].
    right; left. exists nm, h, proof, key. by repeat split.
  - rewrite updateDocument_eq.
    destruct (Z.eqb_spec (owner (documentAt s i)) address_zero);
      [left; eauto|].
    destruct (editorAt s i (msg_sender env)) eqn:E; [|left; eauto].
    right; right; left. exists i, body. by repeat split.
  - rewrite grantAccess_eq.
    destruct (Z.eqb_spec u address_zero); [left; eauto|].
    destruct (Z.eqb_spec (owner (documentAt s i)) address_zero);
      [left; eauto|].
    destruct (Z.eqb_spec (msg_sender env) (owner (documentAt s i)));
      [|left; eauto].
    right; right; right. exists i, u. by repeat split.
Qed.

(** An id that no creation of the run returned has no owner stored. *)
Lemma never_created_no_owner txs documentId :
  documentId = 0 \/ ~ In documentId (created_ids (snd (run this F init txs))) ->
  owner (documentAt (fst (run this F init txs)) documentId) = address_zero.
Proof.
  intros Hnot.
  destruct (run_init_created_ids this F txs) as [Hids Hcount].
  assert (Hout : ~ (1 <= documentId
                    <= _documentCount (fst (run this F init txs)))).
  { rewrite Hcount, <- in_ids_upto, <- Hids.
    destruct Hnot as [-> | H]; [|done].
    rewrite Hids, in_ids_upto. lia. }
  assert (Hinv : invariant (fst (run this F init txs)))
    by apply invariant_run, invariant_init.
  by rewrite (inv_fresh_document _ Hinv documentId Hout).
Qed.

(** X1.  After any sequence of transactions, at id 0 and at every id
    that no successful creation returned, [updateDocument] reverts with
    [DocumentNotFound] for every sender and body, and so does
    [grantAccess] for every sender and every non-zero target: the lookup
    comes before the authorization check. *)
Theorem calls_on_never_created txs documentId env :
  documentId = 0 \/ ~ In documentId (created_ids (snd (run this F init txs))) ->
  (forall body,
     updateDocument env documentId body (fst (run this F init txs)) =
       Revert (DocumentNotFound documentId)) /\
  (forall user,
     user <> address_zero ->
     grantAccess env documentId user (fst (run this F init txs)) =
       Revert (DocumentNotFound documentId)).
Proof.
  intros Hnot. apply never_created_no_owner in Hnot as Hno.
  split.
  - intros body. by rewrite updateDocument_eq, Hno.
  - intros user Hu. rewrite grantAccess_eq, Hno.
    by destruct (Z.eqb_spec user address_zero).
Qed.

(** Along a run, an existing document keeps existing, with its owner,
    name, key and creation time. *)
Lemma run_document_kept s txs i :
  invariant s -> exists_document s i ->
  invariant (fst (run this F s txs)) /\
  owner (documentAt (fst (run this F s txs)) i) = owner (documentAt s i) /\
  name (documentAt (fst (run this F s txs)) i) = name (documentAt s i) /\
  encryptedKey (documentAt (fst (run this F s txs)) i) =
    encryptedKey (documentAt s i) /\
  createdAt (documentAt (fst (run this F s txs)) i) =
    createdAt (documentAt s i).
Proof.
  intros Hinv Hex.
  pose (P := fun t =>
    invariant t /\
    owner (documentAt t i) = owner (documentAt s i) /\
    name (documentAt t i) = name (documentAt s i) /\
    encryptedKey (documentAt t i) = encryptedKey (documentAt s i) /\
    createdAt (documentAt t i) = createdAt (documentAt s i)).
  apply (run_preserves this F P); [|split; [exact Hinv | done]].
  intros t t' (Ht & Ho & Hn & Hk & Hc) Hstep.
  split; [by apply (invariant_step this t)|].
  assert (Hext : exists_document t i)
    by (unfold exists_document; by rewrite Ho).
  destruct (step_document_kept this t t' i Ht Hstep Hext)
    as (Ho' & Hn' & Hk' & Hc').
  by rewrite Ho', Hn', Hk', Hc'.
Qed.

(** X2.  From a reachable state on, whatever transactions follow, an
    existing document stays in place and its owner, name, encrypted key
    and creation time never change. *)
Theorem document_fields_immutable s txs documentId :
  reachable this F s ->
  exists_document s documentId ->
  exists_document (fst (run this F s txs)) documentId /\
  owner (documentAt (fst (run this F s txs)) documentId) =
    owner (documentAt s documentId) /\
  name (documentAt (fst (run this F s txs)) documentId) =
    name (documentAt s documentId) /\
  encryptedKey (documentAt (fst (run this F s txs)) documentId) =
    encryptedKey (documentAt s documentId) /\
  createdAt (documentAt (fst (run this F s txs)) documentId) =
    createdAt (documentAt s documentId).
Proof.
  intros Hreach Hex. apply invariant_reachable in Hreach as Hinv.
  destruct (run_document_kept s txs documentId Hinv Hex)
    as (_ & Ho & Hn & Hk & Hc).
  split; [unfold exists_document; by rewrite Ho|]. done.
Qed.

(** X3.  In a reachable state, if a transaction changes the encrypted
    body or [updatedAt] of an existing document, then it is an
    [updateDocument] of that document sent by one of its editors, the
    body is the one sent and [updatedAt] is the time of the call. *)
Theorem body_changed_only_by_editor s env c documentId :
  reachable this F s ->
  exists_document s documentId ->
  encryptedBody (documentAt (fst (transact this F s (env, c))) documentId) <>
    encryptedBody (documentAt s documentId) \/
  updatedAt (documentAt (fst (transact this F s (env, c))) documentId) <>
    updatedAt (documentAt s documentId) ->
  exists body,
    c = UpdateDocument documentId body /\
    editorAt s documentId (msg_sender env) = true /\
    encryptedBody (documentAt (fst (transact this F s (env, c))) documentId) =
      body /\
    updatedAt (documentAt (fst (transact this F s (env, c))) documentId) =
      block_timestamp env.
Proof.
  intros Hreach Hex Hchg. apply invariant_reachable in Hreach as Hinv.
  destruct (transact_cases s env c)
    as [[e Hr] | [(nm & h & proof & key & -> & _ & Hlt & Hr)
       | [(j & body & -> & Hexj & Hed & Hr) | (j & u & -> & _ & _ & _ & Hr)]]];
    rewrite Hr in *; cbn [fst] in *.
  - by destruct Hchg.
  - rewrite documentAt_created in Hchg. case_decide as E; [|by destruct Hchg].
    exfalso. apply Hex. rewrite (inv_fresh_document s Hinv); [done|].
    pose proof (inv_count s Hinv). lia.
  - rewrite documentAt_updated in *.
    destruct (decide (j = documentId)) as [->|Hne]; [|by destruct Hchg].
    by exists body.
  - rewrite documentAt_granted in Hchg. by destruct Hchg.
Qed.

(** X4.  If a transaction makes [user] an editor of [documentId] where
    it was not one before, then either it is a creation sent by [user]
    that returned [documentId], or it is a [grantAccess] of [documentId]
    to [user] sent by the owner of that document.  Nobody else can add
    to an access set. *)
Theorem editor_added_only_by_owner s env c documentId user :
  editorAt s documentId user = false ->
  editorAt (fst (transact this F s (env, c))) documentId user = true ->
  (exists nm h proof,
     c = CreateDocument nm h proof /\ user = msg_sender env /\
     snd (transact this F s (env, c)) = Ok (Some documentId)) \/
  (c = GrantAccess documentId user /\
   exists_document s documentId /\
   msg_sender env = owner (documentAt s documentId)).
Proof.
  intros Hno Hyes.
  destruct (transact_cases s env c)
    as [[e Hr] | [(nm & h & proof & key & -> & _ & Hlt & Hr)
       | [(j & body & -> & Hexj & Hed & Hr) | (j & u & -> & Hu & Hexj & Hown & Hr)]]];
    rewrite Hr in *; cbn [fst snd] in *.
  - congruence.
  - rewrite editorAt_created in Hyes. case_decide as E; [|congruence].
    injection E as <- <-. left. by exists nm, h, proof.
  - rewrite editorAt_updated in Hyes. congruence.
  - rewrite editorAt_granted in Hyes. case_decide as E; [|congruence].
    injection E as <- <-. by right.
Qed.

(** *** Editing and decrypting go together *)

Lemma allowed_created env nm key s :
  allowed (created this env nm key s) =
  {[ (key, msg_sender env) ]} ∪ ({[ (key, this) ]} ∪ allowed s).
Proof. reflexivity. Qed.

Lemma allowed_granted i u s :
  allowed (granted i u s) =
  {[ (encryptedKey (documentAt s i), u) ]} ∪ allowed s.
Proof. reflexivity. Qed.

Lemma decrypt_consistent_step s s' :
  invariant s -> decrypt_consistent this s -> step this s s' ->
  decrypt_consistent this s'.
Proof.
  intros Hinv Hdc [ | env nm key Hlt | env j body Hexj Hed | env j v Hv Hexj Hown];
    [done|..]; intros i Hex; unfold exists_document in Hex.
  - rewrite documentAt_created, allowed_created in *.
    destruct (decide (_documentCount s + 1 = i)) as [<-|Hne]; simpl in *.
    + split; [set_solver|]. intros u Hu. rewrite editorAt_created in Hu.
      case_decide as E; [injection E as <-; set_solver|].
      rewrite (inv_fresh_editor s Hinv) in Hu; [done|].
      pose proof (inv_count s Hinv). lia.
    + destruct (Hdc i Hex) as [Hthis Hed]. split; [set_solver|].
      intros u Hu. rewrite editorAt_created in Hu.
      case_decide as E; [by injection E|]. specialize (Hed u Hu). set_solver.
  - rewrite documentAt_updated in *.
    destruct (decide (j = i)) as [->|Hne]; simpl in *; by apply Hdc.
  - rewrite documentAt_granted, allowed_granted in *.
    destruct (Hdc i Hex) as [Hthis Hed]. split; [set_solver|].
    intros u Hu. rewrite editorAt_granted in Hu.
    case_decide as E; [injection E as <- <-; set_solver|].
    specialize (Hed u Hu). set_solver.
Qed.

(** X5.  In every reachable state, for every existing document, the
    contract itself and every editor of the document are among the
    accounts the contract has allowed to decrypt the document's key: no
    editor is left without the right to decrypt. *)
Theorem editors_may_decrypt s documentId user :
  reachable this F s ->
  exists_document s documentId ->
  (encryptedKey (documentAt s documentId), this) ∈ allowed s /\
  (editorAt s documentId user = true ->
   (encryptedKey (documentAt s documentId), user) ∈ allowed s).
Proof.
  intros Hreach Hex.
  assert (H : invariant s /\ decrypt_consistent this s).
  { revert s Hreach Hex. intros s Hreach _. revert s Hreach.
    apply (reachable_ind this F).
    - split; [apply invariant_init|]. intros i Hi.
      unfold exists_document in Hi. by rewrite documentAt_init in Hi.
    - intros t t' [Ht Hd] Hstep.
      split; [by apply (invariant_step this t)|].
      by apply (decrypt_consistent_step t). }
  destruct H as [_ Hdc]. destruct (Hdc documentId Hex) as [Hthis Hed].
  split; [done | apply Hed].
Qed.

(** *** The event log *)

Lemma created_event_ids_app l1 l2 :
  created_event_ids (l1 ++ l2) = created_event_ids l1 ++ created_event_ids l2.
Proof.
  induction l1 as [|[i o n | i e | i u] l1 IH]; simpl; [done|..];
    by rewrite IH.
Qed.

(** A transaction that returns appends one event, of its own kind; one
    that reverts appends none. *)
Lemma transact_events s tx :
  exists new,
    events (fst (transact this F s tx)) = events s ++ new /\
    created_event_ids new = created_ids [snd (transact this F s tx)] /\
    length new = count_returned [snd (transact this F s tx)].
Proof.
  destruct tx as [env c].
  destruct (transact_cases s env c)
    as [[e Hr] | [(nm & h & proof & key & -> & _ & Hlt & Hr)
       | [(j & body & -> & Hexj & Hed & Hr) | (j & u & -> & Hu & Hexj & Hown & Hr)]]];
    rewrite Hr; cbn [fst snd].
  - exists []. by rewrite app_nil_r.
  - by exists [DocumentCreated (_documentCount s + 1) (msg_sender env) nm].
  - by exists [DocumentUpdated j (msg_sender env)].
  - by exists [AccessGranted j u].
Qed.

Lemma run_events txs : forall s,
  exists new,
    events (fst (run this F s txs)) = events s ++ new /\
    created_event_ids new = created_ids (snd (run this F s txs)) /\
    length new = count_returned (snd (run this F s txs)).
Proof.
  induction txs as [|tx txs IH]; intros s.
  - exists []. by rewrite app_nil_r.
  - rewrite run_cons. cbn [fst snd].
    destruct (transact_events s tx) as (n1 & He1 & Hi1 & Hl1).
    destruct (IH (fst (transact this F s tx))) as (n2 & He2 & Hi2 & Hl2).
    exists (n1 ++ n2). split; [|split].
    + by rewrite He2, He1, app_assoc.
    + rewrite created_event_ids_app, Hi1, Hi2.
      by destruct (snd (transact this F s tx)) as [[?|]|?].
    + rewrite length_app, Hl1, Hl2.
      by destruct (snd (transact this F s tx)) as [[?|]|?].
Qed.

(** X6.  The event log is append-only and mirrors the run: a run keeps
    the events that were there and appends exactly one event for each
    transaction that returned, none for one that reverted; the ids of
    the appended [DocumentCreated] events are, in order, the ids its
    creations returned. *)
Theorem events_mirror_run s txs :
  exists new,
    events (fst (run this F s txs)) = events s ++ new /\
    length new = count_returned (snd (run this F s txs)) /\
    created_event_ids new = created_ids (snd (run this F s txs)).
Proof.
  destruct (run_events txs s) as (new & He & Hi & Hl). by exists new.
Qed.

(** X7.  After any sequence of transactions since deployment, the
    [DocumentCreated] events of the log carry the ids 1, 2, ..., n in
    order, where n is [documentCount()]. *)
Theorem created_events_enumerate txs :
  created_event_ids (events (fst (run this F init txs))) =
  ids_upto (Z.to_nat (documentCount (fst (run this F init txs)))).
Proof.
  destruct (run_events txs init) as (new & He & Hi & _).
  destruct (run_init_created_ids this F txs) as [Hids Hcount].
  rewrite He. change (events init) with (@nil Event). rewrite app_nil_l, Hi.
  unfold documentCount. rewrite Hcount, Nat2Z.id. exact Hids.
Qed.

(** *** Enumerating the documents *)

Lemma all_found_transact s tx :
  invariant s -> all_found s -> msg_sender (fst tx) <> address_zero ->
  all_found (fst (transact this F s tx)).
Proof.
  intros Hinv Hall Hsender. destruct tx as [env c]. cbn [fst] in Hsender.
  destruct (transact_cases s env c)
    as [[e Hr] | [(nm & h & proof & key & -> & _ & Hlt & Hr)
       | [(j & body & -> & Hexj & Hed & Hr) | (j & u & -> & Hu & Hexj & Hown & Hr)]]];
    rewrite Hr; cbn [fst]; [done|..]; intros i Hi; unfold exists_document.
  - rewrite count_created in Hi. rewrite documentAt_created.
    case_decide; [done|]. apply Hall. lia.
  - rewrite documentAt_updated. case_decide as E; [subst j; simpl|];
      by apply Hall.
  - rewrite documentAt_granted. by apply Hall.
Qed.

Lemma all_found_run txs : forall s,
  invariant s -> all_found s -> senders_nonzero txs ->
  all_found (fst (run this F s txs)).
Proof.
  induction txs as [|tx txs IH]; intros s Hinv Hall Hs; [done|].
  apply Forall_cons in Hs as [Htx Hs]. rewrite run_cons. cbn [fst].
  apply IH; [|by apply all_found_transact|done].
  apply (invariant_step this s); [done | apply transact_step].
Qed.

(** X8.  When every transaction since deployment was sent from a
    non-zero address, [getDocument] returns exactly at the ids from 1 to
    [documentCount()]: reading the counter and then every id up to it
    finds a document each time, and nothing is found beyond. *)
Theorem getDocument_found_iff txs documentId :
  senders_nonzero txs ->
  (exists d, getDocument documentId (fst (run this F init txs)) = Ok d) <->
  1 <= documentId <= documentCount (fst (run this F init txs)).
Proof.
  intros Hs.
  assert (Hinv : invariant (fst (run this F init txs)))
    by apply invariant_run, invariant_init.
  split.
  - intros [d Hd].
    destruct (decide (1 <= documentId
                      <= _documentCount (fst (run this F init txs))))
      as [|Hout]; [done|].
    rewrite getDocument_absent in Hd; [done|].
    by rewrite (inv_fresh_document _ Hinv documentId Hout).
  - intros Hin. rewrite getDocument_exists; [by eexists|].
    apply all_found_run; [apply invariant_init | | done | done].
    intros i Hi. change (_documentCount init) with 0 in Hi. lia.
Qed.

(** *** The owner stays in control *)

(** X9.  In every reachable state, the owner of an existing document
    can act on it: an [updateDocument] sent by the owner returns, and a
    [grantAccess] sent by the owner to any non-zero address returns and
    makes that address an editor. *)
Theorem owner_can_update_and_grant s env documentId :
  reachable this F s ->
  exists_document s documentId ->
  msg_sender env = owner (documentAt s documentId) ->
  (forall body,
     updateDocument env documentId body s =
       Ok (tt, updated env documentId body s)) /\
  (forall user,
     user <> address_zero ->
     grantAccess env documentId user s = Ok (tt, granted documentId user s) /\
     isEditor documentId user (granted documentId user s) = Ok true).
Proof.
  intros Hreach Hex Hown. apply invariant_reachable in Hreach as Hinv.
  split.
  - intros body. apply updateDocument_Ok; [done|].
    rewrite Hown. by apply (inv_owner_editor s Hinv).
  - intros user Hu. split.
    + rewrite grantAccess_eq.
      destruct (Z.eqb_spec user address_zero); [done|].
      destruct (Z.eqb_spec (owner (documentAt s documentId)) address_zero);
        [done|].
      by destruct (Z.eqb_spec (msg_sender env)
                     (owner (documentAt s documentId))).
    + rewrite isEditor_exists, editorAt_granted.
      * by rewrite decide_True.
      * unfold exists_document. by rewrite documentAt_granted.
Qed.

(** *** Timestamps *)

(** X10.  When block time does not go back along the transactions
    since deployment, every stored document has
    [createdAt <= updatedAt], and [updatedAt] is at most the time of the
    last transaction. *)
Theorem timestamps_ordered t0 txs documentId :
  0 <= t0 ->
  clock_ordered t0 txs ->
  createdAt (documentAt (fst (run this F init txs)) documentId) <=
    updatedAt (documentAt (fst (run this F init txs)) documentId) /\
  updatedAt (documentAt (fst (run this F init txs)) documentId) <=
    last_time t0 txs.
Proof.
  intros Ht Hclock.
  apply (stamped_by_run this F txs t0 init); [by apply stamped_by_init|done].
Qed.

(** *** The zero address and the counter *)

(** X11.  In every reachable state, [isEditor] answers [false] for the
    zero address at every existing document: the zero address is never
    given access. *)
Theorem zero_address_never_editor s documentId :
  reachable this F s ->
  exists_document s documentId ->
  isEditor documentId address_zero s = Ok false.
Proof.
  intros Hreach Hex. apply invariant_reachable in Hreach as Hinv.
  rewrite isEditor_exists by done.
  by rewrite (inv_zero_editor s Hinv).
Qed.

Lemma length_created_ids rs : (length (created_ids rs) <= length rs)%nat.
Proof.
  induction rs as [|[[i|]|e] rs IH]; simpl; lia.
Qed.

Lemma length_run txs : forall s, length (snd (run this F s txs)) = length txs.
Proof.
  induction txs as [|tx txs IH]; intros s; [done|].
  rewrite run_cons. cbn [snd length]. by rewrite IH.
Qed.

(** X12.  From any state, a run never lowers the counter and raises it
    by at most one per transaction: it grows by exactly the number of
    creations that returned. *)
Theorem documentCount_grows s txs :
  documentCount (fst (run this F s txs)) =
    documentCount s + Z.of_nat (length (created_ids (snd (run this F s txs)))) /\
  documentCount s <= documentCount (fst (run this F s txs)) /\
  documentCount (fst (run this F s txs)) <=
    documentCount s + Z.of_nat (length txs).
Proof.
  destruct (run_created_ids this F txs s) as [_ Hcount].
  pose proof (length_created_ids (snd (run this F s txs))) as Hle.
  rewrite length_run in Hle. unfold documentCount. lia.
Qed.

End Ledger.

(** * The front end's helpers, checked *)

Example btoa_examples :
  btoa (lit "Man") = Some (lit "TWFu") /\
  btoa (lit "Ma") = Some (lit "TWE=") /\
  btoa (lit "M") = Some (lit "TQ==") /\
  btoa [] = Some [] /\
  btoa [256] = None.
Proof. repeat split; vm_compute; reflexivity. Qed.

Example atob_examples :
  atob (lit "TWFu") = Some (lit "Man") /\
  atob (lit "TWE=") = Some (lit "Ma") /\
  atob (lit "TWE") = Some (lit "Ma") /\
  atob (lit " T Q = = ") = Some (lit "M") /\
  atob (lit "T") = None /\
  atob (lit "TQ=") = None /\
  atob (lit "a:b=") = None.
Proof. repeat split; vm_compute; reflexivity. Qed.

Example hexToBytes_examples :
  hexToBytes (lit "0xff00Ab") = [Byte.xff; Byte.x00; Byte.xab] /\
  hexToBytes (lit "ff0") = [Byte.xff] /\
  hexToBytes (lit "zz12") = [Byte.x00; Byte.x12] /\
  hexToBytes (lit "-1 f") = [Byte.xff; Byte.x0f] /\
  hexToBytes (lit "0X12") = [Byte.x00; Byte.x12] /\
  hexToBytes (lit "0x") = [].
Proof. repeat split; vm_compute; reflexivity. Qed.

Example shortAddress_examples :
  shortAddress (Some (lit "0x1234567890abcdef1234567890abcdef12345678")) =
    lit "0x1234...5678" /\
  shortAddress (Some (lit "abc")) = lit "abc...abc" /\
  shortAddress (Some []) = lit "--" /\
  shortAddress None = lit "--".
Proof. repeat split; vm_compute; reflexivity. Qed.

(** ** Slices *)

Lemma js_slice_first (s : js_string) (n : Z) :
  0 <= n -> js_slice s 0 (Some n) = take (Z.to_nat n) s.
Proof.
  intros Hn. unfold js_slice.
  destruct (Z.ltb_spec 0 0); [lia|]. destruct (Z.ltb_spec n 0); [lia|].
  rewrite (Z.min_l 0) by lia. rewrite Z.sub_0_r.
  change (Z.to_nat 0) with 0%nat. rewrite drop_0.
  destruct (Z.leb_spec (Z.min n (Z.of_nat (length s))) 0) as [Hle|Hgt].
  - destruct (decide (n = 0)) as [->|]; [done|].
    assert (length s = 0%nat) as ->%nil_length_inv by lia. by rewrite take_nil.
  - destruct (Z.min_spec n (Z.of_nat (length s))) as [[_ ->]|[Hlen ->]];
      [done|].
    rewrite Nat2Z.id, (take_ge s (length s)) by lia.
    by rewrite (take_ge s (Z.to_nat n)) by lia.
Qed.

Lemma js_slice_last (s : js_string) (n : Z) :
  0 < n -> js_slice s (- n) None = drop (length s - Z.to_nat n) s.
Proof.
  intros Hn. unfold js_slice.
  destruct (Z.ltb_spec (- n) 0); [|lia].
  destruct (Z.leb_spec (Z.of_nat (length s))
              (Z.max (Z.of_nat (length s) + - n) 0)) as [Hle|Hgt].
  - assert (length s = 0%nat) as ->%nil_length_inv by lia. done.
  - rewrite take_ge by (rewrite length_drop; lia).
    f_equal. lia.
Qed.

Lemma js_slice_from (s : js_string) (n : Z) :
  0 <= n -> js_slice s n None = drop (Z.to_nat n) s.
Proof.
  intros Hn. unfold js_slice.
  destruct (Z.ltb_spec n 0); [lia|].
  destruct (Z.leb_spec (Z.of_nat (length s))
              (Z.min n (Z.of_nat (length s)))) as [Hle|Hgt].
  - rewrite drop_ge; [done | lia].
  - rewrite Z.min_l by lia.
    rewrite take_ge; [done|]. rewrite length_drop. lia.
Qed.

(** ** [shortAddress] *)

(** X13.  For a non-empty string, [shortAddress] is the first six code
    units (fewer when the string is shorter), three dots, and the last
    four code units (fewer when the string is shorter): 13 code units
    for every string of six or more, such as an address.  Without an
    argument, or for the empty string, it is two dashes. *)
Theorem shortAddress_shape (a : js_string) :
  a <> [] ->
  shortAddress (Some a) = take 6 a ++ lit "..." ++ drop (length a - 4) a /\
  length (shortAddress (Some a)) = (Nat.min 6 (length a) + 3 + Nat.min 4 (length a))%nat /\
  shortAddress (Some []) = lit "--" /\
  shortAddress None = lit "--".
Proof.
  intros Ha.
  assert (H : shortAddress (Some a) =
              take 6 a ++ lit "..." ++ drop (length a - 4) a).
  { destruct a as [|c a]; [done|]. unfold shortAddress.
    by rewrite (js_slice_first _ 6), (js_slice_last _ 4) by lia. }
  split; [exact H|]. split; [|done].
  rewrite H, !length_app, length_take, length_drop.
  change (length (lit "...")) with 3%nat. lia.
Qed.

(** X14.  For a non-empty string of at most four code units,
    [shortAddress] does not shorten anything: the whole string appears
    before and after the dots. *)
Theorem shortAddress_short (a : js_string) :
  a <> [] -> (length a <= 4)%nat ->
  shortAddress (Some a) = a ++ lit "..." ++ a.
Proof.
  intros Ha Hlen.
  destruct a as [|c a]; [done|]. unfold shortAddress.
  rewrite (js_slice_first _ 6), (js_slice_last _ 4) by lia.
  rewrite take_ge by (simpl in *; lia).
  replace (length (c :: a) - Z.to_nat 4)%nat with 0%nat by (simpl in *; lia).
  done.
Qed.

(** ** Base64 *)

Lemma list_ind3 {A} (P : list A -> Prop) :
  P [] -> (forall a, P [a]) -> (forall a b, P [a; b]) ->
  (forall a b c l, P l -> P (a :: b :: c :: l)) ->
  forall l, P l.
Proof.
  intros H0 H1 H2 H3 l.
  assert (H : P l /\ (forall a, P (a :: l)) /\ (forall a b, P (a :: b :: l))).
  { induction l as [|x l (IH0 & IH1 & IH2)]; [by repeat split|].
    split; [apply IH1|]. split; [intros a; apply IH2|].
    intros a b. by apply H3. }
  apply H.
Qed.

(** The alphabet, checked character by character: each of the 64
    characters is read back as its index, and none is [=], [:] or white
    space. *)
Lemma base64_alphabet_checked :
  forallb (fun i => match base64_index (base64_char i) with
                    | Some j => (j =? i)
                    | None => false
                    end
                    && negb (base64_char i =? 61)
                    && negb (base64_char i =? 58)
                    && negb (is_ascii_whitespace (base64_char i)))
          (map Z.of_nat (seq 0 64)) = true.
Proof. vm_compute. reflexivity. Qed.

Lemma base64_char_facts i :
  0 <= i < 64 ->
  base64_index (base64_char i) = Some i /\
  base64_char i <> 61 /\ base64_char i <> 58 /\
  is_ascii_whitespace (base64_char i) = false.
Proof.
  intros Hi. pose proof base64_alphabet_checked as H.
  rewrite forallb_forall in H. specialize (H i).
  assert (Hin : In i (map Z.of_nat (seq 0 64))).
  { apply in_map_iff. exists (Z.to_nat i). split; [lia|]. apply in_seq. lia. }
  apply H in Hin.
  apply andb_prop in Hin as [Hin Hws]. apply andb_prop in Hin as [Hin H58].
  apply andb_prop in Hin as [Hidx H61].
  apply negb_true_iff in Hws, H58, H61. apply Z.eqb_neq in H58, H61.
  destruct (base64_index (base64_char i)) as [j|]; [|done].
  apply Z.eqb_eq in Hidx as ->. done.
Qed.

Lemma bytes_to_sextets_range vs :
  Forall (fun v => 0 <= v < 256) vs ->
  Forall (fun x => 0 <= x < 64) (bytes_to_sextets vs).
Proof.
  induction vs as [ | a | a b | a b c l IH] using list_ind3; intros H.
  - constructor.
  - apply Forall_cons in H as [Ha _]. simpl.
    repeat constructor; Z.div_mod_to_equations; lia.
  - apply Forall_cons in H as [Ha H]. apply Forall_cons in H as [Hb _].
    simpl. repeat constructor; Z.div_mod_to_equations; lia.
  - apply Forall_cons in H as [Ha H]. apply Forall_cons in H as [Hb H].
    apply Forall_cons in H as [Hc H].
    cbn [bytes_to_sextets].
    repeat (apply Forall_cons; split); [..|by apply IH];
      Z.div_mod_to_equations; lia.
Qed.

Lemma sextets_to_bytes_to_sextets vs :
  Forall (fun v => 0 <= v < 256) vs ->
  sextets_to_bytes (bytes_to_sextets vs) = vs.
Proof.
  induction vs as [ | a | a b | a b c l IH] using list_ind3; intros H.
  - done.
  - apply Forall_cons in H as [Ha _]. simpl. f_equal.
    Z.div_mod_to_equations; lia.
  - apply Forall_cons in H as [Ha H]. apply Forall_cons in H as [Hb _].
    simpl. f_equal; [|f_equal]; Z.div_mod_to_equations; lia.
  - apply Forall_cons in H as [Ha H]. apply Forall_cons in H as [Hb H].
    apply Forall_cons in H as [Hc H].
    cbn [bytes_to_sextets sextets_to_bytes]. rewrite (IH H).
    f_equal; [|f_equal; [|f_equal]]; Z.div_mod_to_equations; lia.
Qed.

Lemma chars_to_sextets_chars l :
  Forall (fun x => 0 <= x < 64) l ->
  chars_to_sextets (map base64_char l) = Some l.
Proof.
  induction 1 as [|x l Hx _ IH]; [done|]. simpl.
  destruct (base64_char_facts x Hx) as [-> _]. by rewrite IH.
Qed.

(** How many groups a byte string makes, by its length modulo 3. *)
Lemma bytes_to_sextets_length (vs : list Z) :
  ((length vs mod 3 = 0 /\ length (bytes_to_sextets vs) mod 4 = 0) \/
   (length vs mod 3 = 1 /\ length (bytes_to_sextets vs) mod 4 = 2) \/
   (length vs mod 3 = 2 /\ length (bytes_to_sextets vs) mod 4 = 3))%nat.
Proof.
  induction vs as [ | a | a b | a b c l IH] using list_ind3.
  - by left.
  - right; left. done.
  - right; right. done.
  - cbn [bytes_to_sextets length].
    replace (S (S (S (length l)))) with (length l + 1 * 3)%nat by lia.
    replace (S (S (S (S (length (bytes_to_sextets l))))))
      with (length (bytes_to_sextets l) + 1 * 4)%nat by lia.
    by rewrite !Nat.Div0.mod_add.
Qed.

Lemma base64_chars_facts l :
  Forall (fun x => 0 <= x < 64) l ->
  Forall (fun c => c <> 61 /\ c <> 58 /\ is_ascii_whitespace c = false)
         (map base64_char l).
Proof.
  induction 1 as [|x l Hx _ IH]; constructor; [|done].
  by destruct (base64_char_facts x Hx) as (_ & ? & ? & ?).
Qed.

Lemma base64_padding_facts n :
  Forall (fun c => c = 61) (base64_padding n).
Proof.
  unfold base64_padding.
  destruct (n mod 3)%nat as [|[|[|]]]; repeat constructor.
Qed.

Lemma filter_all {A} (f : A -> bool) l :
  Forall (fun x => f x = true) l -> List.filter f l = l.
Proof.
  induction 1 as [|x l Hx _ IH]; [done|]. simpl. by rewrite Hx, IH.
Qed.

(** Dropping the padding of an encoded text leaves the characters of
    its groups. *)
Lemma strip_padding_encode vs :
  Forall (fun v => 0 <= v < 256) vs ->
  strip_padding (base64_encode vs) = map base64_char (bytes_to_sextets vs).
Proof.
  intros Hvs. unfold base64_encode, strip_padding.
  pose proof (base64_chars_facts _ (bytes_to_sextets_range vs Hvs)) as Hm.
  set (m := map base64_char (bytes_to_sextets vs)) in *.
  assert (Hlen : length m = length (bytes_to_sextets vs))
    by apply length_map.
  destruct (bytes_to_sextets_length vs) as [[Hv Hs] | [[Hv Hs] | [Hv Hs]]];
    unfold base64_padding; rewrite Hv; rewrite <- Hlen in Hs.
  - rewrite app_nil_r.
    replace (Z.of_nat (length m) mod 4 =? 0) with true
      by (symmetry; apply Z.eqb_eq;
          rewrite <- (Nat2Z.inj_mod _ 4), Hs; done).
    assert (Hfirst : forall c r, rev m = c :: r -> (c =? 61) = false).
    { intros c r Hr. apply Z.eqb_neq.
      assert (Hin : In c m) by (apply in_rev; rewrite Hr; by left).
      rewrite Forall_forall in Hm.
      apply list_elem_of_In in Hin. by destruct (Hm c Hin). }
    destruct (rev m) as [|c1 [|c2 r]] eqn:Hr; [done|..];
      by rewrite (Hfirst _ _ eq_refl).
  - replace (Z.of_nat (length (m ++ [61; 61])) mod 4 =? 0) with true.
    + rewrite rev_app_distr. cbn [rev app]. rewrite !Z.eqb_refl.
      apply rev_involutive.
    + symmetry. apply Z.eqb_eq. rewrite length_app. cbn [length].
      rewrite <- (Nat2Z.inj_mod _ 4).
      rewrite <- Nat.Div0.add_mod_idemp_l, Hs. done.
  - replace (Z.of_nat (length (m ++ [61])) mod 4 =? 0) with true.
    + rewrite rev_app_distr. cbn [rev app].
      destruct (rev m) as [|c2 r] eqn:Hr.
      * apply (f_equal (@rev Z)) in Hr. rewrite rev_involutive in Hr.
        by rewrite Hr.
      * assert (Hin : In c2 m) by (apply in_rev; rewrite Hr; by left).
        rewrite Forall_forall in Hm.
        apply list_elem_of_In in Hin. destruct (Hm c2 Hin) as [H61 _].
        apply Z.eqb_neq in H61. rewrite H61, Z.eqb_refl.
        change (rev r ++ [c2]) with (rev (c2 :: r)).
        rewrite <- Hr. apply rev_involutive.
    + symmetry. apply Z.eqb_eq. rewrite length_app. cbn [length].
      rewrite <- (Nat2Z.inj_mod _ 4).
      rewrite <- Nat.Div0.add_mod_idemp_l, Hs. done.
Qed.

(** [atob] undoes [btoa] on strings of bytes. *)
Lemma atob_encode vs :
  Forall (fun v => 0 <= v < 256) vs ->
  atob (base64_encode vs) = Some vs.
Proof.
  intros Hvs. unfold atob.
  rewrite filter_all.
  - rewrite (strip_padding_encode vs Hvs), length_map.
    destruct (Z.eqb_spec
                (Z.of_nat (length (bytes_to_sextets vs)) mod 4) 1) as [E|_].
    + exfalso. rewrite <- (Nat2Z.inj_mod _ 4) in E.
      destruct (bytes_to_sextets_length vs) as [[_ H] | [[_ H] | [_ H]]];
        rewrite H in E; done.
    + rewrite chars_to_sextets_chars by by apply bytes_to_sextets_range.
      by rewrite sextets_to_bytes_to_sextets.
  - unfold base64_encode. apply Forall_app. split.
    + eapply Forall_impl;
        [apply base64_chars_facts, bytes_to_sextets_range, Hvs|].
      intros c (_ & _ & ->). done.
    + eapply Forall_impl; [apply base64_padding_facts|].
      by intros c ->.
Qed.

(** ** Bytes and characters *)

Lemma byte_value_range b : 0 <= byte_value b < 256.
Proof.
  unfold byte_value. pose proof (Byte.to_N_bounded b). lia.
Qed.

Lemma to_uint8_byte_value b : to_uint8 (byte_value b) = b.
Proof.
  unfold to_uint8. rewrite Z.mod_small by apply byte_value_range.
  unfold byte_value. by rewrite N2Z.id, Byte.of_to_N.
Qed.

Lemma binary_of_bytes (bytes : list Byte.byte) (acc : js_string) :
  fold_left (fun binary byte => binary ++ [fromCharCode (byte_value byte)])
    bytes acc = acc ++ map byte_value bytes.
Proof.
  revert acc. induction bytes as [|b bytes IH]; intros acc; simpl.
  - by rewrite app_nil_r.
  - rewrite IH, <- app_assoc. simpl. do 2 f_equal.
    unfold fromCharCode. apply Z.mod_small.
    pose proof (byte_value_range b). lia.
Qed.

Lemma bytesToBase64_encode bytes :
  bytesToBase64 bytes = Some (base64_encode (map byte_value bytes)).
Proof.
  unfold bytesToBase64, btoa. rewrite binary_of_bytes. simpl.
  replace (forallb (fun c => c <=? 255) (map byte_value bytes)) with true;
    [done|].
  symmetry. apply forallb_forall. intros c Hc.
  apply in_map_iff in Hc as (b & <- & _).
  pose proof (byte_value_range b). lia.
Qed.

Lemma byte_values_range bytes :
  Forall (fun v => 0 <= v < 256) (map byte_value bytes).
Proof.
  apply Forall_forall. intros v Hv.
  apply list_elem_of_In, in_map_iff in Hv as (b & <- & _).
  apply byte_value_range.
Qed.

(** X15.  [base64ToBytes] undoes [bytesToBase64]: every byte array is
    encoded to a text, and decoding that text gives the same bytes
    back. *)
Theorem base64_round_trip (bytes : list Byte.byte) :
  exists text,
    bytesToBase64 bytes = Some text /\
    base64ToBytes text = Some bytes.
Proof.
  exists (base64_encode (map byte_value bytes)).
  split; [apply bytesToBase64_encode|].
  unfold base64ToBytes. rewrite atob_encode by apply byte_values_range.
  f_equal. rewrite map_map. rewrite <- (map_id bytes) at 2.
  apply map_ext. apply to_uint8_byte_value.
Qed.

Lemma base64_encode_cons3 a b c l :
  base64_encode (a :: b :: c :: l) =
  base64_char (a / 4) :: base64_char ((a mod 4) * 16 + b / 16)
    :: base64_char ((b mod 16) * 4 + c / 64) :: base64_char (c mod 64)
    :: base64_encode l.
Proof.
  unfold base64_encode, base64_padding. cbn [bytes_to_sextets map length app].
  replace (S (S (S (length l)))) with (length l + 1 * 3)%nat by lia.
  by rewrite Nat.Div0.mod_add.
Qed.

Lemma base64_encode_length (vs : list Z) :
  length (base64_encode vs) = (4 * ((length vs + 2) / 3))%nat.
Proof.
  induction vs as [ | a | a b | a b c l IH] using list_ind3; [done..|].
  rewrite base64_encode_cons3. cbn [length]. rewrite IH.
  replace (S (S (S (length l))) + 2)%nat with (length l + 2 + 1 * 3)%nat by lia.
  rewrite Nat.div_add by done. lia.
Qed.

(** X16.  The text [bytesToBase64] returns has four characters for
    every three bytes, rounded up; each character is one of the 64 of
    the alphabet or [=], so the text never contains [:], the separator
    of the stored payload. *)
Theorem bytesToBase64_shape (bytes : list Byte.byte) text :
  bytesToBase64 bytes = Some text ->
  length text = (4 * ((length bytes + 2) / 3))%nat /\
  Forall (fun c => is_Some (base64_index c) \/ c = 61) text /\
  ~ In 58 text.
Proof.
  rewrite bytesToBase64_encode. intros [= <-].
  pose proof (base64_chars_facts _
                (bytes_to_sextets_range _ (byte_values_range bytes))) as Hm.
  split; [by rewrite base64_encode_length, length_map|].
  split.
  - unfold base64_encode. apply Forall_app. split.
    + apply Forall_forall. intros c Hc.
      apply list_elem_of_In, in_map_iff in Hc as (x & <- & Hx). left.
      pose proof (bytes_to_sextets_range _ (byte_values_range bytes)) as Hr.
      rewrite Forall_forall in Hr. apply list_elem_of_In in Hx.
      destruct (base64_char_facts x (Hr x Hx)) as [-> _]. by eexists.
    + eapply Forall_impl; [apply base64_padding_facts|]. intros c ->. by right.
  - unfold base64_encode. intros Hin. apply in_app_or in Hin as [Hin|Hin].
    + rewrite Forall_forall in Hm. apply list_elem_of_In in Hin.
      by destruct (Hm 58 Hin) as (_ & ? & _).
    + pose proof (base64_padding_facts (length (map byte_value bytes))) as Hp.
      rewrite Forall_forall in Hp. apply list_elem_of_In in Hin.
      by specialize (Hp 58 Hin).
Qed.

Lemma chars_to_sextets_bad d c :
  In c d -> base64_index c = None -> chars_to_sextets d = None.
Proof.
  intros Hin Hc. induction d as [|x d IH]; [done|]. simpl.
  destruct Hin as [->|Hin]; [by rewrite Hc|].
  rewrite (IH Hin). by destruct (base64_index x).
Qed.

Lemma strip_padding_keeps d c :
  In c d -> c <> 61 -> In c (strip_padding d).
Proof.
  intros Hin Hc. unfold strip_padding.
  destruct (Z.of_nat (length d) mod 4 =? 0); [|done].
  apply in_rev in Hin.
  destruct (rev d) as [|c1 [|c2 r]] eqn:Hr; [done|..].
  - destruct Hin as [->|[]]. apply Z.eqb_neq in Hc. rewrite Hc.
    apply in_rev. rewrite Hr. by left.
  - assert (Hd : In c d -> In c d) by done.
    destruct (Z.eqb_spec c1 61) as [->|_].
    + destruct Hin as [<-|Hin]; [done|].
      destruct (Z.eqb_spec c2 61) as [->|_].
      * destruct Hin as [<-|Hin]; [done|]. by apply in_rev in Hin.
      * by apply in_rev in Hin.
    + apply in_rev. rewrite Hr. exact Hin.
Qed.

(** X17.  [base64ToBytes] throws on a text with a character that is
    neither of the alphabet, nor ASCII white space, nor [=]: it never
    returns bytes for such a text. *)
Theorem base64ToBytes_rejects (text : js_string) (c : Z) :
  In c text ->
  base64_index c = None ->
  is_ascii_whitespace c = false ->
  c <> 61 ->
  base64ToBytes text = None.
Proof.
  intros Hin Hidx Hws H61. unfold base64ToBytes, atob.
  set (d := strip_padding _).
  assert (Hd : In c d).
  { apply strip_padding_keeps; [|done]. apply filter_In. by rewrite Hws. }
  destruct (Z.of_nat (length d) mod 4 =? 1); [done|].
  by rewrite (chars_to_sextets_bad d c Hd Hidx).
Qed.

(** ** [hexToBytes] *)

Lemma list_ind2 {A} (P : list A -> Prop) :
  P [] -> (forall a, P [a]) -> (forall a b l, P l -> P (a :: b :: l)) ->
  forall l, P l.
Proof.
  intros H0 H1 H2 l.
  assert (H : P l /\ forall a, P (a :: l)).
  { induction l as [|x l [IH0 IH1]]; [by split|].
    split; [apply IH1|]. intros a. by apply H2. }
  apply H.
Qed.

Lemma js_slice_between (s : js_string) (p q : Z) :
  0 <= p <= q ->
  js_slice s p (Some q) = take (Z.to_nat (q - p)) (drop (Z.to_nat p) s).
Proof.
  intros Hpq. unfold js_slice.
  destruct (Z.ltb_spec p 0); [lia|]. destruct (Z.ltb_spec q 0); [lia|].
  destruct (Z.leb_spec (Z.min q (Z.of_nat (length s)))
              (Z.min p (Z.of_nat (length s)))) as [Hle|Hgt].
  - destruct (decide (Z.of_nat (length s) <= p)).
    + rewrite drop_ge by lia. by rewrite take_nil.
    + by replace (Z.to_nat (q - p)) with 0%nat by lia.
  - rewrite (Z.min_l p) by lia.
    destruct (decide (q <= Z.of_nat (length s))).
    + by rewrite (Z.min_l q) by lia.
    + rewrite (Z.min_r q) by lia.
      rewrite !take_ge; [done | rewrite length_drop; lia..].
Qed.

(** The loop reads the string two code units at a time. *)
Lemma hexToBytes_loop_cons a b (r : js_string) :
  hexToBytes_loop (a :: b :: r) =
  store_number (parseInt16 [a; b]) :: hexToBytes_loop r.
Proof.
  unfold hexToBytes_loop.
  replace (Z.to_nat (Z.of_nat (length (a :: b :: r)) / 2))
    with (S (Z.to_nat (Z.of_nat (length r) / 2))).
  - cbn [seq map]. f_equal.
    + by rewrite js_slice_between by lia.
    + rewrite <- seq_shift, map_map. apply map_ext. intros i.
      rewrite !js_slice_between by lia. do 2 f_equal.
      replace (Z.to_nat (Z.of_nat (S i) * 2))
        with (S (S (Z.to_nat (Z.of_nat i * 2)))) by lia.
      cbn [drop]. f_equal. lia.
  - cbn [length]. rewrite !Nat2Z.inj_succ.
    replace (Z.succ (Z.succ (Z.of_nat (length r))))
      with (Z.of_nat (length r) + 1 * 2) by lia.
    rewrite Z.div_add by done.
    pose proof (Z.div_pos (Z.of_nat (length r)) 2). lia.
Qed.

Lemma hex_digit_range c d :
  hex_digit c = Some d ->
  0 <= d < 16 /\
  (48 <= c <= 57 \/ 65 <= c <= 70 \/ 97 <= c <= 102).
Proof.
  unfold hex_digit. intros H.
  repeat match type of H with
         | context [(?x <=? ?y)] => destruct (Z.leb_spec x y)
         end; simpl in H; try discriminate; injection H as <-; lia.
Qed.

Lemma is_white_space_printable c :
  32 < c < 160 -> is_white_space c = false.
Proof.
  intros Hc. unfold is_white_space. cbn [existsb].
  repeat match goal with
         | |- context [c =? ?k] => destruct (Z.eqb_spec c k); [lia|]
         end.
  done.
Qed.

(** Two hex digits are read as the byte they spell. *)
Lemma parseInt16_digits a b ha hb :
  hex_digit a = Some ha -> hex_digit b = Some hb ->
  parseInt16 [a; b] = Some (ha * 16 + hb).
Proof.
  intros Ha Hb.
  destruct (hex_digit_range a ha Ha) as [_ Hra].
  destruct (hex_digit_range b hb Hb) as [_ Hrb].
  unfold parseInt16. cbn [trim_start].
  rewrite is_white_space_printable by lia.
  destruct (Z.eqb_spec a 45); [lia|]. destruct (Z.eqb_spec a 43); [lia|].
  cbn [orb].
  destruct (Z.eqb_spec b 120); [lia|]. destruct (Z.eqb_spec b 88); [lia|].
  rewrite andb_false_r. cbn [hex_run]. rewrite Ha, Hb.
  unfold default, id. f_equal. lia.
Qed.

Lemma hexToBytes_loop_digits (s : js_string) :
  Forall (fun c => is_Some (hex_digit c)) s ->
  hexToBytes_loop s = hex_pairs s.
Proof.
  induction s as [ | a | a b r IH] using list_ind2; intros H; [done..|].
  apply Forall_cons in H as [[ha Ha] H]. apply Forall_cons in H as [[hb Hb] H].
  rewrite hexToBytes_loop_cons, (parseInt16_digits a b ha hb Ha Hb), (IH H).
  cbn [hex_pairs store_number]. by rewrite Ha, Hb.
Qed.

Lemma hex_pairs_length (s : js_string) :
  length (hex_pairs s) = (length s / 2)%nat.
Proof.
  induction s as [ | a | a b r IH] using list_ind2; [done..|].
  cbn [hex_pairs length]. rewrite IH.
  replace (S (S (length r))) with (length r + 1 * 2)%nat by lia.
  rewrite Nat.div_add by done. lia.
Qed.

Lemma js_startsWith_nil (s : js_string) : js_startsWith s [] = true.
Proof. by destruct s. Qed.

Lemma hexToBytes_digits_aux (s : js_string) :
  Forall (fun c => is_Some (hex_digit c)) s ->
  hexToBytes (lit "0x" ++ s) = hex_pairs s /\
  hexToBytes s = hex_pairs s.
Proof.
  intros Hs. split.
  - unfold hexToBytes. change (lit "0x") with [48; 120].
    cbn [app js_startsWith]. rewrite !Z.eqb_refl, js_startsWith_nil.
    cbn [andb]. rewrite js_slice_from by done.
    by apply hexToBytes_loop_digits.
  - unfold hexToBytes. change (lit "0x") with [48; 120].
    replace (js_startsWith s [48; 120]) with false;
      [by apply hexToBytes_loop_digits|].
    destruct s as [|a [|b r]]; cbn [js_startsWith]; [done| |].
    + by rewrite andb_false_r.
    + apply Forall_cons in Hs as [_ Hs]. apply Forall_cons in Hs as [[hb Hb] _].
      destruct (hex_digit_range b hb Hb) as [_ Hrb].
      destruct (Z.eqb_spec 120 b); [lia|]. by rewrite andb_false_r.
Qed.

(** X18.  On a string of hex digits, with or without the [0x] in
    front, [hexToBytes] returns one byte for each pair of digits, 16
    times the first digit plus the second; a digit left over at the end
    is dropped. *)
Theorem hexToBytes_digits (s : js_string) :
  Forall (fun c => is_Some (hex_digit c)) s ->
  hexToBytes (lit "0x" ++ s) = hex_pairs s /\
  hexToBytes s = hex_pairs s /\
  length (hex_pairs s) = (length s / 2)%nat.
Proof.
  intros Hs. destruct (hexToBytes_digits_aux s Hs) as [H1 H2].
  split; [exact H1|]. split; [exact H2 | apply hex_pairs_length].
Qed.

(** X19.  The prefix is recognised in lower case only: on [0X]
    followed by hex digits, [hexToBytes] reads [0X] as a pair that is
    not a number and stores a zero byte for it, in front of the bytes
    of the digits. *)
Theorem hexToBytes_upper_prefix (s : js_string) :
  Forall (fun c => is_Some (hex_digit c)) s ->
  hexToBytes (lit "0X" ++ s) = Byte.x00 :: hex_pairs s.
Proof.
  intros Hs. unfold hexToBytes.
  change (lit "0x") with [48; 120]. change (lit "0X") with [48; 88].
  cbn [app js_startsWith]. rewrite Z.eqb_refl.
  replace (120 =? 88) with false by done. cbn [andb].
  rewrite hexToBytes_loop_cons. f_equal.
  by apply hexToBytes_loop_digits.
Qed.

Lemma hex_pairs_same_digits (s : js_string) : forall t : js_string,
  Forall2 (fun c d => hex_digit c = hex_digit d) s t ->
  hex_pairs s = hex_pairs t.
Proof.
  induction s as [ | a | a b r IH] using list_ind2; intros t H.
  - by inversion H.
  - inversion H as [|? c ? t' _ Ht']; subst. by inversion Ht'.
  - inversion H as [|? c ? t' Hac Ht']; subst.
    inversion Ht' as [|? d ? t'' Hbd Ht'']; subst.
    cbn [hex_pairs]. by rewrite Hac, Hbd, (IH t'' Ht'').
Qed.

(** X20.  The letter case of the digits does not matter: two strings
    of hex digits with the same digit values, such as an address in
    lower case and the same address with a mixed-case checksum, give
    the same bytes. *)
Theorem hexToBytes_same_digits (s t : js_string) :
  Forall (fun c => is_Some (hex_digit c)) s ->
  Forall2 (fun c d => hex_digit c = hex_digit d) s t ->
  hexToBytes (lit "0x" ++ s) = hexToBytes (lit "0x" ++ t).
Proof.
  intros Hs Hst.
  assert (Ht : Forall (fun c => is_Some (hex_digit c)) t).
  { clear -Hs Hst. induction Hst as [|c d s t Hcd _ IH]; [done|].
    apply Forall_cons in Hs as [Hc Hs]. constructor; [by rewrite <- Hcd|].
    by apply IH. }
  destruct (hexToBytes_digits_aux s Hs) as [-> _].
  destruct (hexToBytes_digits_aux t Ht) as [-> _].
  by apply hex_pairs_same_digits.
Qed.

(** ** The stored payload *)

Lemma js_split_no_separator sep (s : js_string) :
  ~ In sep s -> js_split sep s = [s].
Proof.
  induction s as [|c s IH]; [done|]. intros Hs. cbn [js_split].
  destruct (Z.eqb_spec c sep) as [->|_]; [destruct Hs; by left|].
  rewrite IH; [done|]. intros H. apply Hs. by right.
Qed.

Lemma js_split_one_separator sep (x y : js_string) :
  ~ In sep x -> ~ In sep y -> js_split sep (x ++ sep :: y) = [x; y].
Proof.
  intros Hx Hy. induction x as [|c x IH]; cbn [app js_split].
  - by rewrite Z.eqb_refl, js_split_no_separator.
  - destruct (Z.eqb_spec c sep) as [->|_]; [destruct Hx; by left|].
    rewrite IH; [done|]. intros H. apply Hx. by right.
Qed.

Lemma base64_encode_nonempty (vs : list Z) :
  vs <> [] -> base64_encode vs <> [].
Proof.
  intros Hvs Hnil. apply (f_equal (@length Z)) in Hnil.
  rewrite base64_encode_length in Hnil. destruct vs as [|v vs]; [done|].
  cbn [length] in Hnil.
  assert (1 <= (S (length vs) + 2) / 3)%nat; [|simpl in *; lia].
  apply Nat.div_le_lower_bound; lia.
Qed.

Lemma base64_encode_no_colon (bytes : list Byte.byte) :
  ~ In 58 (base64_encode (map byte_value bytes)).
Proof.
  unfold base64_encode. intros Hin. apply in_app_or in Hin as [Hin|Hin].
  - pose proof (base64_chars_facts _
                  (bytes_to_sextets_range _ (byte_values_range bytes))) as Hm.
    rewrite Forall_forall in Hm. apply list_elem_of_In in Hin.
    by destruct (Hm 58 Hin) as (_ & ? & _).
  - pose proof (base64_padding_facts (length (map byte_value bytes))) as Hp.
    rewrite Forall_forall in Hp. apply list_elem_of_In in Hin.
    by specialize (Hp 58 Hin).
Qed.

Lemma base64ToBytes_encode (bytes : list Byte.byte) :
  base64ToBytes (base64_encode (map byte_value bytes)) = Some bytes.
Proof.
  unfold base64ToBytes. rewrite atob_encode by apply byte_values_range.
  f_equal. rewrite map_map. rewrite <- (map_id bytes) at 2.
  apply map_ext. apply to_uint8_byte_value.
Qed.

Section Payload.

Variable sha256 : list Byte.byte -> list Byte.byte.
Variable aes_gcm_encrypt :
  list Byte.byte -> list Byte.byte -> list Byte.byte -> list Byte.byte.
Variable aes_gcm_decrypt :
  list Byte.byte -> list Byte.byte -> list Byte.byte -> option (list Byte.byte).
Variable utf8_encode : js_string -> list Byte.byte.
Variable utf8_decode : list Byte.byte -> js_string.

(** X21.  What [encryptWithAddressKey] produces, [decryptWithAddressKey]
    reads back under the same address: provided the initialisation
    vector and the cipher bytes are not empty, AES-GCM opens what it
    sealed under that key and vector, and the text survives encoding and
    decoding, the decrypted text is the text that was encrypted.  The
    payload format itself (two base64 texts around a colon) loses
    nothing. *)
Theorem encrypt_then_decrypt plainText address iv :
  iv <> [] ->
  aes_gcm_encrypt (deriveAesKey sha256 address) iv (utf8_encode plainText)
    <> [] ->
  aes_gcm_decrypt (deriveAesKey sha256 address) iv
    (aes_gcm_encrypt (deriveAesKey sha256 address) iv
       (utf8_encode plainText)) = Some (utf8_encode plainText) ->
  utf8_decode (utf8_encode plainText) = plainText ->
  exists payload,
    encryptWithAddressKey sha256 aes_gcm_encrypt utf8_encode
      plainText address iv = Some payload /\
    decryptWithAddressKey sha256 aes_gcm_decrypt utf8_decode
      payload address = Some plainText.
Proof.
  intros Hiv Hcipher Hopen Htext.
  set (key := deriveAesKey sha256 address) in *.
  set (cipher := aes_gcm_encrypt key iv (utf8_encode plainText)) in *.
  set (ivText := base64_encode (map byte_value iv)).
  set (cipherText := base64_encode (map byte_value cipher)).
  exists (ivText ++ lit ":" ++ cipherText). split.
  - unfold encryptWithAddressKey. fold key. fold cipher.
    by rewrite !bytesToBase64_encode.
  - assert (Hi : ivText <> []).
    { apply base64_encode_nonempty. by destruct iv. }
    assert (Hc : cipherText <> []).
    { apply base64_encode_nonempty. by destruct cipher. }
    unfold decryptWithAddressKey. change (lit ":") with [58].
    cbn [app].
    rewrite js_split_one_separator by apply base64_encode_no_colon.
    destruct ivText as [|i0 ivText'] eqn:Ei; [done|].
    destruct cipherText as [|c0 cipherText'] eqn:Ec; [done|].
    cbn [app]. rewrite <- Ei, <- Ec. unfold ivText, cipherText.
    rewrite !base64ToBytes_encode. fold key.
    by rewrite Hopen, Htext.
Qed.

(** X22.  A payload that is not of the form text, colon, text is read
    as the empty text, without any error and without touching the key:
    so for a payload without colon, for one that starts with a colon,
    and for one with nothing between its first colon and the next colon
    or the end. *)
Theorem decrypt_malformed_payload address :
  (forall payload,
     ~ In 58 payload ->
     decryptWithAddressKey sha256 aes_gcm_decrypt utf8_decode
       payload address = Some []) /\
  (forall rest,
     decryptWithAddressKey sha256 aes_gcm_decrypt utf8_decode
       (58 :: rest) address = Some []) /\
  (forall ivPart,
     ~ In 58 ivPart ->
     decryptWithAddressKey sha256 aes_gcm_decrypt utf8_decode
       (ivPart ++ [58]) address = Some [] /\
     forall rest,
       decryptWithAddressKey sha256 aes_gcm_decrypt utf8_decode
         (ivPart ++ 58 :: 58 :: rest) address = Some []).
Proof.
  split; [|split].
  - intros payload Hno. unfold decryptWithAddressKey.
    destruct payload as [|c p]; [done|].
    rewrite js_split_no_separator by done. done.
  - intros rest. unfold decryptWithAddressKey. cbn [js_split].
    by rewrite Z.eqb_refl.
  - intros ivPart Hno. split.
    + unfold decryptWithAddressKey.
      destruct (ivPart ++ [58]) as [|c p] eqn:E; [done|]. rewrite <- E.
      rewrite (js_split_one_separator 58 ivPart []); [|done|by intros []].
      by destruct ivPart.
    + intros rest. unfold decryptWithAddressKey.
      destruct (ivPart ++ 58 :: 58 :: rest) as [|c p] eqn:E; [done|].
      rewrite <- E. clear E.
      assert (H : exists pieces,
                js_split 58 (ivPart ++ 58 :: 58 :: rest) =
                ivPart :: [] :: pieces).
      { clear -Hno. induction ivPart as [|c x IH]; cbn [app js_split].
        - rewrite !Z.eqb_refl. by eexists.
        - destruct (Z.eqb_spec c 58) as [->|_]; [destruct Hno; by left|].
          destruct IH as [pieces ->]; [intros H; apply Hno; by right|].
          by eexists. }
      destruct H as [pieces ->]. by destruct ivPart.
Qed.

End Payload.

(** ** [normalizeDecryptedAddress] *)

Example normalizeDecryptedAddress_examples :
  normalizeDecryptedAddress (lit "255") =
    Some (lit "0x00000000000000000000000000000000000000ff") /\
  normalizeDecryptedAddress (lit "0xAbC") = Some (lit "0xAbC") /\
  normalizeDecryptedAddress (lit " 0X10 ") =
    Some (lit "0x0000000000000000000000000000000000000010") /\
  normalizeDecryptedAddress [] =
    Some (lit "0x0000000000000000000000000000000000000000") /\
  normalizeDecryptedAddress (lit "-255") =
    Some (lit "0x0000000000000000000000000000000000000-ff") /\
  normalizeDecryptedAddress (lit "12a") = None /\
  normalizeDecryptedAddress
    (lit "1461501637330902918203684832716283019655932542976") =
    Some (lit "0x10000000000000000000000000000000000000000").
Proof. repeat split; vm_compute; reflexivity. Qed.

Lemma hex_digits_fuel_acc fuel : forall n acc,
  hex_digits_fuel fuel n acc = hex_digits_fuel fuel n [] ++ acc.
Proof.
  induction fuel as [|fuel IH]; intros n acc; [done|]. cbn [hex_digits_fuel].
  destruct (n / 16 =? 0); [done|].
  rewrite (IH _ (_ :: acc)), (IH _ [_]), <- app_assoc. done.
Qed.

Lemma hex_char_facts d :
  0 <= d < 16 ->
  digit_value 16 (hex_char d) = Some d /\ is_white_space (hex_char d) = false.
Proof.
  intros Hd. unfold hex_char.
  destruct (Z.ltb_spec d 10).
  - split; [|apply is_white_space_printable; lia]. unfold digit_value.
    destruct (Z.leb_spec 48 (48 + d)); [|lia].
    destruct (Z.leb_spec (48 + d) 57); [|lia]. cbn [andb].
    destruct (Z.ltb_spec (48 + d - 48) 16); [|lia]. f_equal. lia.
  - split; [|apply is_white_space_printable; lia]. unfold digit_value.
    destruct (Z.leb_spec 48 (87 + d)); [|lia].
    destruct (Z.leb_spec (87 + d) 57); [lia|]. cbn [andb].
    destruct (Z.leb_spec 97 (87 + d)); [|lia].
    destruct (Z.leb_spec (87 + d) 122); [|lia]. cbn [andb].
    destruct (Z.ltb_spec (87 + d - 87) 16); [|lia]. f_equal. lia.
Qed.

Lemma digits_value_app radix (s t : js_string) : forall acc,
  digits_value radix acc (s ++ t) =
  match digits_value radix acc s with
  | Some v => digits_value radix v t
  | None => None
  end.
Proof.
  induction s as [|c s IH]; intros acc; [done|]. cbn [app digits_value].
  destruct (digit_value radix c); [apply IH | done].
Qed.

Lemma digits_value_zeros k : digits_value 16 0 (repeat 48 k) = Some 0.
Proof. induction k as [|k IH]; [done|]. exact IH. Qed.

(** The digits written for [n] spell [n]. *)
Lemma hex_digits_fuel_value fuel : forall n,
  0 <= n < 16 ^ Z.of_nat fuel ->
  digits_value 16 0 (hex_digits_fuel fuel n []) = Some n.
Proof.
  induction fuel as [|fuel IH]; intros n Hn.
  - simpl in *. f_equal. lia.
  - cbn [hex_digits_fuel].
    assert (Hd : 0 <= n mod 16 < 16) by (apply Z.mod_pos_bound; lia).
    destruct (Z.eqb_spec (n / 16) 0) as [E|E].
    + cbn [digits_value]. destruct (hex_char_facts _ Hd) as [-> _].
      f_equal. Z.div_mod_to_equations. lia.
    + rewrite hex_digits_fuel_acc, digits_value_app, IH.
      * cbn [digits_value]. destruct (hex_char_facts _ Hd) as [-> _].
        f_equal. Z.div_mod_to_equations. lia.
      * rewrite Nat2Z.inj_succ, Z.pow_succ_r in Hn by lia.
        split; [apply Z.div_pos; lia|].
        apply Z.div_lt_upper_bound; lia.
Qed.

Lemma hex_digits_fuel_length fuel : forall n (k : nat),
  0 <= n < 16 ^ Z.of_nat k -> (1 <= k)%nat ->
  (length (hex_digits_fuel fuel n []) <= k)%nat.
Proof.
  induction fuel as [|fuel IH]; intros n k Hn Hk; [simpl; lia|].
  cbn [hex_digits_fuel].
  destruct (Z.eqb_spec (n / 16) 0) as [E|E]; [simpl; lia|].
  rewrite hex_digits_fuel_acc, length_app. cbn [length].
  destruct k as [|[|k]]; [lia| |].
  - exfalso. apply E. apply Z.div_small. change (16 ^ Z.of_nat 1) with 16 in Hn.
    lia.
  - specialize (IH (n / 16) (S k)).
    rewrite (Nat2Z.inj_succ (S k)), Z.pow_succ_r in Hn by lia.
    assert (length (hex_digits_fuel fuel (n / 16) []) <= S k)%nat; [|lia].
    apply IH; [|lia]. split; [apply Z.div_pos; lia|].
    apply Z.div_lt_upper_bound; lia.
Qed.

Lemma hex_digits_fuel_chars fuel : forall n,
  0 <= n ->
  Forall (fun c => is_white_space c = false) (hex_digits_fuel fuel n []).
Proof.
  induction fuel as [|fuel IH]; intros n Hn; [constructor|].
  cbn [hex_digits_fuel].
  assert (Hd : 0 <= n mod 16 < 16) by (apply Z.mod_pos_bound; lia).
  destruct (hex_char_facts _ Hd) as [_ Hws].
  destruct (n / 16 =? 0); [by repeat constructor|].
  rewrite hex_digits_fuel_acc. apply Forall_app. split; [|by repeat constructor].
  apply IH. apply Z.div_pos; lia.
Qed.

Lemma hex_digits_fuel_enough n :
  0 <= n -> n < 16 ^ Z.of_nat (S (Z.to_nat (Z.log2 n))).
Proof.
  intros Hn. rewrite Nat2Z.inj_succ, Z2Nat.id by apply Z.log2_nonneg.
  destruct (decide (n = 0)) as [->|Hpos]; [done|].
  destruct (Z.log2_spec n) as [_ Hlt]; [lia|].
  eapply Z.lt_le_trans; [exact Hlt|].
  apply Z.pow_le_mono_l. lia.
Qed.

Lemma trim_start_none (s : js_string) :
  Forall (fun c => is_white_space c = false) s -> trim_start s = s.
Proof. intros H. destruct H as [|c s Hc _]; [done|]. simpl. by rewrite Hc. Qed.

Lemma trim_end_none (s : js_string) :
  Forall (fun c => is_white_space c = false) s -> trim_end s = s.
Proof.
  intros H. unfold trim_end. rewrite trim_start_none.
  - apply rev_involutive.
  - apply Forall_forall. intros c Hc. rewrite Forall_forall in H.
    apply H. apply list_elem_of_In. apply in_rev.
    by apply list_elem_of_In.
Qed.

(** X23.  For a value that does not start with [0x] and that [BigInt]
    reads as a number [n >= 0], [normalizeDecryptedAddress] returns a
    text that starts with [0x] and that [BigInt] reads as the same
    number; when [n] is below 16^40, as every address is, the text has
    42 code units. *)
Theorem normalizeDecryptedAddress_number (value : js_string) (n : Z) :
  js_startsWith value (lit "0x") = false ->
  StringToBigInt value = Some n ->
  0 <= n ->
  exists text,
    normalizeDecryptedAddress value = Some text /\
    js_startsWith text (lit "0x") = true /\
    StringToBigInt text = Some n /\
    (n < 16 ^ 40 -> length text = 42%nat).
Proof.
  intros Hprefix Hvalue Hn.
  unfold normalizeDecryptedAddress. rewrite Hprefix, Hvalue.
  eexists. split; [reflexivity|].
  unfold bigint_toString16. destruct (Z.ltb_spec n 0); [lia|].
  set (digits := hex_digits n).
  assert (Hval : digits_value 16 0 digits = Some n)
    by (apply hex_digits_fuel_value; split; [done|by apply hex_digits_fuel_enough]).
  assert (Hchars : Forall (fun c => is_white_space c = false) digits)
    by by apply hex_digits_fuel_chars.
  set (padded := padStart digits 40 48).
  assert (Hpval : digits_value 16 0 padded = Some n).
  { unfold padded, padStart. by rewrite digits_value_app, digits_value_zeros. }
  assert (Hpne : padded <> []).
  { intros E. rewrite E in Hpval. simpl in Hpval.
    injection Hpval as <-. unfold padded, padStart, digits in E.
    by vm_compute in E. }
  assert (Hpchars : Forall (fun c => is_white_space c = false) padded).
  { unfold padded, padStart. apply Forall_app. split; [|done].
    apply Forall_forall. intros c Hc.
    apply list_elem_of_In, repeat_spec in Hc. by subst c. }
  change (lit "0x") with [48; 120]. cbn [app].
  split; [|split].
  - cbn [js_startsWith]. by rewrite !Z.eqb_refl, js_startsWith_nil.
  - assert (Hall : Forall (fun c => is_white_space c = false)
                     (48 :: 120 :: padded)) by by repeat constructor.
    unfold StringToBigInt.
    rewrite (trim_start_none _ Hall), (trim_end_none _ Hall).
    replace (48 =? 43) with false by done.
    replace (48 =? 45) with false by done.
    rewrite !Z.eqb_refl. cbn [andb orb]. unfold parse_digits.
    by destruct padded.
  - intros Hlt. cbn [length]. do 2 f_equal.
    unfold padded, padStart. rewrite length_app, repeat_length.
    assert (length digits <= 40)%nat; [|lia].
    apply (hex_digits_fuel_length _ n 40); [|lia].
    change (Z.of_nat 40) with 40. by split.
Qed.

(** X24.  Whatever [normalizeDecryptedAddress] returns starts with
    [0x], so normalising it again returns it unchanged. *)
Theorem normalizeDecryptedAddress_idempotent (value text : js_string) :
  normalizeDecryptedAddress value = Some text ->
  js_startsWith text (lit "0x") = true /\
  normalizeDecryptedAddress text = Some text.
Proof.
  intros H.
  assert (Hstart : js_startsWith text (lit "0x") = true).
  { unfold normalizeDecryptedAddress in H.
    destruct (js_startsWith value (lit "0x")) eqn:E; [by injection H as <-|].
    destruct (StringToBigInt value); [|done]. injection H as <-.
    change (lit "0x") with [48; 120]. cbn [app js_startsWith].
    by rewrite !Z.eqb_refl, js_startsWith_nil. }
  split; [done|]. unfold normalizeDecryptedAddress. by rewrite Hstart.
Qed.

(** * The further properties at concrete inputs *)

Lemma demo_created_reachable :
  reachable demo_this demo_fromExternal demo_created.
Proof. exists [demo_create]. vm_compute. reflexivity. Qed.

Lemma demo_created_exists : exists_document demo_created 1.
Proof. vm_compute. discriminate. Qed.

Lemma demo_granted_exists : exists_document demo_granted 1.
Proof. vm_compute. discriminate. Qed.

Lemma calls_on_never_created_witness :
  ~ In 2 (created_ids (snd (run demo_this demo_fromExternal init demo_txs))) /\
  updateDocument (at_time alice 200) 2 "ciphertext"
    (fst (run demo_this demo_fromExternal init demo_txs)) =
    Revert (DocumentNotFound 2) /\
  grantAccess (at_time alice 200) 2 bob
    (fst (run demo_this demo_fromExternal init demo_txs)) =
    Revert (DocumentNotFound 2).
Proof.
  assert (Hnot : ~ In 2 (created_ids
                           (snd (run demo_this demo_fromExternal init demo_txs))))
    by (vm_compute; intros [H|[]]; discriminate H).
  assert (Hb : bob <> address_zero) by (unfold bob, address_zero; lia).
  destruct (calls_on_never_created demo_this demo_fromExternal demo_txs 2
              (at_time alice 200) (or_intror Hnot)) as [Hu Hg].
  split; [exact Hnot|]. split; [exact (Hu _) | exact (Hg bob Hb)].
Defined.

Lemma document_fields_immutable_witness :
  exists_document demo_created 1 /\
  name (documentAt
          (fst (run demo_this demo_fromExternal demo_created
                  [demo_grant; demo_update])) 1) =
    name (documentAt demo_created 1) /\
  owner (documentAt
           (fst (run demo_this demo_fromExternal demo_created
                   [demo_grant; demo_update])) 1) =
    owner (documentAt demo_created 1).
Proof.
  destruct (document_fields_immutable demo_this demo_fromExternal demo_created
              [demo_grant; demo_update] 1 demo_created_reachable
              demo_created_exists) as (_ & Ho & Hn & _).
  split; [exact demo_created_exists|]. split; [exact Hn | exact Ho].
Defined.

Lemma body_changed_only_by_editor_witness :
  exists body,
    UpdateDocument 1 "ciphertext" = UpdateDocument 1 body /\
    editorAt demo_granted 1 bob = true /\
    encryptedBody
      (documentAt (fst (transact demo_this demo_fromExternal demo_granted
                          demo_update)) 1) = body.
Proof.
  assert (Hchg :
    encryptedBody
      (documentAt (fst (transact demo_this demo_fromExternal demo_granted
                          (at_time bob 104, UpdateDocument 1 "ciphertext"))) 1)
      <> encryptedBody (documentAt demo_granted 1))
    by (vm_compute; discriminate).
  destruct (body_changed_only_by_editor demo_this demo_fromExternal
              demo_granted (at_time bob 104) (UpdateDocument 1 "ciphertext") 1
              demo_granted_reachable demo_granted_exists (or_introl Hchg))
    as (body & Hc & Hed & Hb & _).
  exists body. split; [exact Hc|]. split; [exact Hed | exact Hb].
Defined.

Lemma editor_added_only_by_owner_witness :
  editorAt demo_created 1 bob = false /\
  editorAt (fst (transact demo_this demo_fromExternal demo_created demo_grant))
    1 bob = true /\
  msg_sender (at_time alice 103) = owner (documentAt demo_created 1).
Proof.
  assert (Hno : editorAt demo_created 1 bob = false)
    by (vm_compute; reflexivity).
  assert (Hyes : editorAt
                   (fst (transact demo_this demo_fromExternal demo_created
                           (at_time alice 103, GrantAccess 1 bob))) 1 bob = true)
    by (vm_compute; reflexivity).
  split; [exact Hno|]. split; [exact Hyes|].
  destruct (editor_added_only_by_owner demo_this demo_fromExternal
              demo_created (at_time alice 103) (GrantAccess 1 bob) 1 bob
              Hno Hyes) as [(nm & h & proof & Hc & _) | (_ & _ & Hown)].
  - discriminate Hc.
  - exact Hown.
Defined.

Lemma editors_may_decrypt_witness :
  editorAt demo_granted 1 bob = true /\
  (encryptedKey (documentAt demo_granted 1), demo_this) ∈ allowed demo_granted /\
  (encryptedKey (documentAt demo_granted 1), bob) ∈ allowed demo_granted.
Proof.
  assert (Hed : editorAt demo_granted 1 bob = true)
    by (vm_compute; reflexivity).
  destruct (editors_may_decrypt demo_this demo_fromExternal demo_granted 1 bob
              demo_granted_reachable demo_granted_exists) as [Hthis Hbob].
  split; [exact Hed|]. split; [exact Hthis | exact (Hbob Hed)].
Defined.

Lemma demo_senders_nonzero : senders_nonzero demo_txs.
Proof.
  unfold senders_nonzero, demo_txs.
  repeat (apply Forall_cons; split; [vm_compute; discriminate|]).
  apply Forall_nil. done.
Qed.

Lemma getDocument_found_iff_witness :
  senders_nonzero demo_txs /\
  exists d,
    getDocument 1 (fst (run demo_this demo_fromExternal init demo_txs)) = Ok d.
Proof.
  split; [exact demo_senders_nonzero|].
  apply (getDocument_found_iff demo_this demo_fromExternal demo_txs 1
           demo_senders_nonzero).
  vm_compute. split; discriminate.
Defined.

Lemma owner_can_update_and_grant_witness :
  updateDocument (at_time alice 150) 1 "new body" demo_created =
    Ok (tt, updated (at_time alice 150) 1 "new body" demo_created) /\
  isEditor 1 carol (granted 1 carol demo_created) = Ok true.
Proof.
  assert (Hc : carol <> address_zero) by (unfold carol, address_zero; lia).
  destruct (owner_can_update_and_grant demo_this demo_fromExternal
              demo_created (at_time alice 150) 1 demo_created_reachable
              demo_created_exists eq_refl) as [Hu Hg].
  split; [exact (Hu _)|]. exact (proj2 (Hg carol Hc)).
Defined.

Lemma timestamps_ordered_witness :
  clock_ordered 0 demo_txs /\
  createdAt (documentAt (fst (run demo_this demo_fromExternal init demo_txs)) 1)
    <= updatedAt
         (documentAt (fst (run demo_this demo_fromExternal init demo_txs)) 1) /\
  updatedAt (documentAt (fst (run demo_this demo_fromExternal init demo_txs)) 1)
    <= 104.
Proof.
  assert (Hclock : clock_ordered 0 demo_txs) by (simpl; lia).
  split; [exact Hclock|].
  exact (timestamps_ordered demo_this demo_fromExternal 0 demo_txs 1
           (Z.le_refl 0) Hclock).
Defined.

Lemma zero_address_never_editor_witness :
  isEditor 1 address_zero demo_granted = Ok false.
Proof.
  exact (zero_address_never_editor demo_this demo_fromExternal demo_granted 1
           demo_granted_reachable demo_granted_exists).
Defined.

Lemma shortAddress_shape_witness :
  lit "0x1234567890abcdef1234567890abcdef12345678" <> [] /\
  shortAddress (Some (lit "0x1234567890abcdef1234567890abcdef12345678")) =
    lit "0x1234...5678" /\
  length (shortAddress
            (Some (lit "0x1234567890abcdef1234567890abcdef12345678"))) = 13%nat.
Proof.
  assert (Ha : lit "0x1234567890abcdef1234567890abcdef12345678" <> [])
    by (vm_compute; discriminate).
  destruct (shortAddress_shape _ Ha) as (Hs & Hl & _).
  split; [exact Ha|]. split; [exact Hs | exact Hl].
Defined.

Lemma shortAddress_short_witness :
  lit "abc" <> [] /\ shortAddress (Some (lit "abc")) = lit "abc...abc".
Proof.
  assert (Ha : lit "abc" <> []) by (vm_compute; discriminate).
  assert (Hl : (length (lit "abc") <= 4)%nat) by (vm_compute; lia).
  split; [exact Ha|]. exact (shortAddress_short (lit "abc") Ha Hl).
Defined.

Lemma bytesToBase64_shape_witness :
  bytesToBase64 [Byte.x4d; Byte.x61] = Some (lit "TWE=") /\
  length (lit "TWE=") = 4%nat /\ ~ In 58 (lit "TWE=").
Proof.
  assert (He : bytesToBase64 [Byte.x4d; Byte.x61] = Some (lit "TWE="))
    by (vm_compute; reflexivity).
  destruct (bytesToBase64_shape [Byte.x4d; Byte.x61] (lit "TWE=") He)
    as (Hl & _ & Hno).
  split; [exact He|]. split; [exact Hl | exact Hno].
Defined.

Lemma base64ToBytes_rejects_witness :
  In 58 (lit "a:b=") /\ base64ToBytes (lit "a:b=") = None.
Proof.
  assert (Hin : In 58 (lit "a:b=")) by (vm_compute; right; left; reflexivity).
  assert (H61 : (58 : Z) <> 61) by lia.
  split; [exact Hin|].
  exact (base64ToBytes_rejects (lit "a:b=") 58 Hin eq_refl eq_refl H61).
Defined.

Lemma demo_digits : Forall (fun c => is_Some (hex_digit c)) (lit "ff00Ab").
Proof. repeat (apply Forall_cons; split; [by eexists|]). by apply Forall_nil. Qed.

Lemma hexToBytes_digits_witness :
  Forall (fun c => is_Some (hex_digit c)) (lit "ff00Ab") /\
  hexToBytes (lit "0xff00Ab") = [Byte.xff; Byte.x00; Byte.xab] /\
  hexToBytes (lit "ff00Ab") = [Byte.xff; Byte.x00; Byte.xab].
Proof.
  destruct (hexToBytes_digits (lit "ff00Ab") demo_digits) as (H1 & H2 & _).
  split; [exact demo_digits|]. split; [exact H1 | exact H2].
Defined.

Lemma hexToBytes_upper_prefix_witness :
  Forall (fun c => is_Some (hex_digit c)) (lit "ff00Ab") /\
  hexToBytes (lit "0Xff00Ab") = [Byte.x00; Byte.xff; Byte.x00; Byte.xab].
Proof.
  split; [exact demo_digits|].
  exact (hexToBytes_upper_prefix (lit "ff00Ab") demo_digits).
Defined.

Lemma hexToBytes_same_digits_witness :
  Forall2 (fun c d => hex_digit c = hex_digit d) (lit "ff00Ab") (lit "FF00aB") /\
  hexToBytes (lit "0xff00Ab") = hexToBytes (lit "0xFF00aB").
Proof.
  assert (H2 : Forall2 (fun c d => hex_digit c = hex_digit d)
                 (lit "ff00Ab") (lit "FF00aB"))
    by (repeat (apply Forall2_cons; split; [reflexivity|]); apply Forall2_nil;
        reflexivity).
  split; [exact H2|].
  exact (hexToBytes_same_digits (lit "ff00Ab") (lit "FF00aB") demo_digits H2).
Defined.

Lemma encrypt_then_decrypt_witness :
  exists payload,
    encryptWithAddressKey demo_digest demo_seal demo_utf8_encode
      (lit "hi") (lit "0x12") [Byte.x01; Byte.x02] = Some payload /\
    decryptWithAddressKey demo_digest demo_open demo_utf8_decode
      payload (lit "0x12") = Some (lit "hi").
Proof.
  assert (Hiv : [Byte.x01; Byte.x02] <> []) by discriminate.
  assert (Hc : demo_seal (deriveAesKey demo_digest (lit "0x12"))
                 [Byte.x01; Byte.x02] (demo_utf8_encode (lit "hi")) <> [])
    by (vm_compute; discriminate).
  exact (encrypt_then_decrypt demo_digest demo_seal demo_open
           demo_utf8_encode demo_utf8_decode (lit "hi") (lit "0x12")
           [Byte.x01; Byte.x02] Hiv Hc eq_refl eq_refl).
Defined.

Lemma decrypt_malformed_payload_witness :
  ~ In 58 (lit "not a payload") /\
  decryptWithAddressKey demo_digest demo_open demo_utf8_decode
    (lit "not a payload") (lit "0x12") = Some [].
Proof.
  assert (Hno : ~ In 58 (lit "not a payload")).
  { vm_compute. intros H.
    repeat (destruct H as [H|H]; [discriminate H|]). exact H. }
  split; [exact Hno|].
  exact (proj1 (decrypt_malformed_payload demo_digest demo_open
                  demo_utf8_decode (lit "0x12")) _ Hno).
Defined.

Lemma normalizeDecryptedAddress_number_witness :
  StringToBigInt (lit "255") = Some 255 /\
  exists text,
    normalizeDecryptedAddress (lit "255") = Some text /\
    StringToBigInt text = Some 255 /\
    length text = 42%nat.
Proof.
  assert (Hv : StringToBigInt (lit "255") = Some 255)
    by (vm_compute; reflexivity).
  assert (Hlt : 255 < 16 ^ 40) by (vm_compute; reflexivity).
  destruct (normalizeDecryptedAddress_number (lit "255") 255 eq_refl Hv
              ltac:(lia)) as (text & Ht & _ & Hn & Hl).
  split; [exact Hv|]. exists text.
  split; [exact Ht|]. split; [exact Hn | exact (Hl Hlt)].
Defined.

Lemma normalizeDecryptedAddress_idempotent_witness :
  normalizeDecryptedAddress (lit "255") =
    Some (lit "0x00000000000000000000000000000000000000ff") /\
  normalizeDecryptedAddress (lit "0x00000000000000000000000000000000000000ff") =
    Some (lit "0x00000000000000000000000000000000000000ff").
Proof.
  assert (H : normalizeDecryptedAddress (lit "255") =
              Some (lit "0x00000000000000000000000000000000000000ff"))
    by (vm_compute; reflexivity).
  split; [exact H|].
  exact (proj2 (normalizeDecryptedAddress_idempotent _ _ H)).
Defined.
